(** * The Type Graph engine of quicktype-core

    A shallow embedding of [packages/quicktype-core/src/Type/TypeGraph.ts]:
    the attribute store, the frozen/open type graph, its traversals, the
    lost-attribute check and the rewrite / remap / garbage-collect /
    fixed-point operations, followed by the properties established about
    them.

    Conventions.
    - A JavaScript exception is a value [Err e] of the [result] type.
    - A JavaScript [Set] is a duplicate-free list in insertion order.
    - A [Map] whose iteration order is observed is an association list;
      the attribute maps, which are only ever looked up, are [gmap]s.
    - TypeGraph objects live in a store addressed by location, because
      rewrites return either the receiver itself or a freshly allocated
      object and the difference is observable. *)

From stdpp Require Import base decidable option list gmap strings.
From Stdlib Require Import ZArith Lia.

Local Open Scope Z_scope.
Local Open Scope nat_scope.

(** ** Exceptions *)

(** [assert], [defined] and [mustNotHappen] of [support/Support] throw a
    fatal internal error; [messageError] of [Messages] throws a structured,
    named error; reading a property of [undefined] throws a [TypeError].
    [Diverged] does not exist in the program: it marks a bounded loop of
    the embedding that used up its bound. *)
Inductive Error : Type :=
| FatalInvariantViolation (message : string)
| IRTypeAttributesNotPropagated (count : nat) (indexes : list Z)
| JSTypeError
| CollaboratorError (message : string)
| Diverged.

Inductive result (A : Type) : Type :=
| Ok (a : A)
| Err (e : Error).
Arguments Ok {A} a.
Arguments Err {A} e.

Global Instance result_ret : MRet result := @Ok.
Global Instance result_bind : MBind result :=
  fun A B f m => match m with Ok a => f a | Err e => Err e end.

Definition isOk {A} (r : result A) : Prop :=
  match r with Ok _ => True | Err _ => False end.

Definition isFatal {A} (r : result A) : Prop :=
  match r with Err (FatalInvariantViolation _) => True | _ => False end.

(** support/Support.ts: [assert(condition, message)]. *)
Definition assert (condition : bool) (message : string) : result unit :=
  if condition then Ok tt else Err (FatalInvariantViolation message).

(** support/Support.ts: [defined(x)]. *)
Definition defined {A} (x : option A) : result A :=
  match x with
  | Some a => Ok a
  | None => Err (FatalInvariantViolation "Defined value expected, but got undefined")
  end.

(** ** JavaScript sets *)

Section JSSet.
Context {A : Type} `{EqDecision A}.

(** [s.add(x)]: a new element goes last, a present one changes nothing. *)
Definition setAdd (s : list A) (x : A) : list A :=
  if decide (x ∈ s) then s else s ++ [x].

(** [s.delete(x)]. *)
Definition setDelete (s : list A) (x : A) : list A :=
  filter (fun y => y ≠ x) s.

Definition setAddAll (s : list A) (xs : list A) : list A := foldl setAdd s xs.

(** [new Set(xs)]. *)
Definition newSet (xs : list A) : list A := setAddAll [] xs.

(** collection-utils: [setUnionManyInto(dest, srcs)] adds every element of
    every source to [dest], in order, and returns [dest]. *)
Definition setUnionManyInto (dest : list A) (srcs : list (list A)) : list A :=
  foldl setAddAll dest srcs.

(** collection-utils: [setSubtract(src, diff)] copies [src] into a new set
    and deletes every element of [diff] from it. *)
Definition setSubtract (src diff : list A) : list A :=
  foldl setDelete (newSet src) diff.

End JSSet.

(** Loops over arrays and maps inside exception-throwing code. *)

(** [for (const x of xs) f(x)] on a state [s]; the first exception ends it. *)
Fixpoint forEach {A S : Type} (f : A → S → result S) (xs : list A) (s : S) : result S :=
  match xs with
  | [] => Ok s
  | x :: rest => s' ← f x s; forEach f rest s'
  end.

(** [xs.map(f)] where [f] may throw. *)
Fixpoint mapArray {A B : Type} (f : A → result B) (xs : list A) : result (list B) :=
  match xs with
  | [] => Ok []
  | x :: rest => y ← f x; ys ← mapArray f rest; Ok (y :: ys)
  end.

(** collection-utils: [mapMap(m, f)] maps the values of a [Map], keeping
    keys and insertion order. *)
Definition mapMap {K V W : Type} (m : list (K * V)) (f : V → result W) : result (list (K * W)) :=
  mapArray (fun kv => w ← f kv.2; Ok (kv.1, w)) m.

(** ** Type references *)

(** Modelled from the spec: [Type/TypeRef.ts] is not among the sources.
    A type reference is the pair of a graph generation's serial and a node
    index; it is valid against one generation only, and using it with a
    graph of another serial is a fatal invariant violation. *)
Record TypeRef : Type := { refSerial : nat; refIndex : nat }.

Global Instance TypeRef_eq_dec : EqDecision TypeRef.
Proof. solve_decision. Defined.

(** Modelled from the spec: [typeRefIndex] of [Type/TypeRef.ts], the index
    component of a reference. *)
Definition typeRefIndex (tref : TypeRef) : nat := refIndex tref.

(** Modelled from the spec: [assertTypeRefGraph] of [Type/TypeRef.ts].  The
    only thing it reads of the graph is the read-only [serial], which is
    what is passed here. *)
Definition assertTypeRefGraph (tref : TypeRef) (graphSerial : nat) : result unit :=
  assert (bool_decide (refSerial tref = graphSerial))
         "Mixing the wrong type reference and graph".

(** ** Type nodes *)

(** Modelled from the spec: [Type/Type.ts] is not among the sources.  The
    engine sees of a node its reference, a kind tag and its child
    references.  [oid] stands for the identity of the JavaScript object:
    [Set<Type>] and [===] compare nodes by identity, and two distinct
    objects have distinct [oid]s. *)
Record Type_ : Type := {
  oid : nat;
  typeRef : TypeRef;
  kind : string;
  childRefs : list TypeRef
}.

Global Instance Type_eq_dec : EqDecision Type_.
Proof. solve_decision. Defined.

(** [t.index] *)
Definition index (t : Type_) : nat := typeRefIndex (typeRef t).

(** ** Attributes *)

(** Modelled from the spec: [attributes/TypeAttributes.ts] is not among the
    sources.  An attribute kind is a singleton token, identified here by
    its name; an attribute value is opaque to the engine, except that the
    value of the provenance kind is a set of integer origin markers. *)
Abbreviation TypeAttributeKind := string (only parsing).

Inductive AttributeValue : Type :=
| ProvenanceSet (markers : list Z)
| OpaqueValue (payload : string).

Global Instance AttributeValue_eq_dec : EqDecision AttributeValue.
Proof. solve_decision. Defined.

Abbreviation TypeAttributes := (gmap string AttributeValue) (only parsing).

Definition emptyTypeAttributes : TypeAttributes := ∅.

(** Modelled from the spec: [Type/ProvenanceTypeAttributeKind.ts], the kind
    under which a node's provenance set is stored. *)
Definition provenanceTypeAttributeKind : TypeAttributeKind := "provenance".

(** ** TypeAttributeStore *)

Module TypeAttributeStore.

(** [_typeGraph] is only used to validate references, so the store keeps
    the serial of the graph that owns it. *)
Record t : Type := mk {
  _typeGraph : nat;
  _values : list (option TypeAttributes);
  _topLevelValues : gmap string TypeAttributes
}.

(** [new TypeAttributeStore(typeGraph, values)] *)
Definition new (typeGraphSerial : nat) (values : list (option TypeAttributes)) : t :=
  mk typeGraphSerial values ∅.

Definition getTypeIndex (this : t) (ty : Type_) : result nat :=
  let tref := typeRef ty in
  _ ← assertTypeRefGraph tref (_typeGraph this);
  Ok (typeRefIndex tref).

Definition attributesForType (this : t) (ty : Type_) : result TypeAttributes :=
  index ← getTypeIndex this ty;
  match _values this !! index with
  | Some (Some maybeAttributes) => Ok maybeAttributes
  | _ => Ok emptyTypeAttributes
  end.

Definition attributesForTopLevel (this : t) (name : string) : TypeAttributes :=
  match _topLevelValues this !! name with
  | Some maybeAttributes => maybeAttributes
  | None => emptyTypeAttributes
  end.

(** [new Map(attributes).set(kind, value)] *)
Definition setInMap (attributes : TypeAttributes) (kind : TypeAttributeKind)
    (value : AttributeValue) : TypeAttributes :=
  <[kind := value]> attributes.

(** [while (index >= this._values.length) this._values.push(undefined)] *)
Definition grow (values : list (option TypeAttributes)) (index : nat) :
    list (option TypeAttributes) :=
  values ++ replicate (S index - length values) None.

(** The store is mutated in place; the mutated store is the result.  The
    only exception is thrown before anything is written. *)
Definition set (this : t) (kind : TypeAttributeKind) (ty : Type_)
    (value : AttributeValue) : result t :=
  index ← getTypeIndex this ty;
  let this1 := mk (_typeGraph this) (grow (_values this) index) (_topLevelValues this) in
  attributes ← attributesForType this1 ty;
  Ok (mk (_typeGraph this1)
         (<[index := Some (setInMap attributes kind value)]> (_values this1))
         (_topLevelValues this1)).

Definition setForTopLevel (this : t) (kind : TypeAttributeKind) (topLevelName : string)
    (value : AttributeValue) : t :=
  mk (_typeGraph this) (_values this)
     (<[topLevelName := setInMap (attributesForTopLevel this topLevelName) kind value]>
        (_topLevelValues this)).

Definition tryGetInMap (attributes : TypeAttributes) (kind : TypeAttributeKind) :
    option AttributeValue :=
  attributes !! kind.

Definition tryGet (this : t) (kind : TypeAttributeKind) (ty : Type_) :
    result (option AttributeValue) :=
  attributes ← attributesForType this ty;
  Ok (tryGetInMap attributes kind).

Definition tryGetForTopLevel (this : t) (kind : TypeAttributeKind) (topLevelName : string) :
    option AttributeValue :=
  tryGetInMap (attributesForTopLevel this topLevelName) kind.

End TypeAttributeStore.

(** ** TypeAttributeStoreView *)

Module TypeAttributeStoreView.

Record t : Type := mk {
  _attributeStore : TypeAttributeStore.t;
  _definition : TypeAttributeKind
}.

Definition set (this : t) (ty : Type_) (value : AttributeValue) : result t :=
  store ← TypeAttributeStore.set (_attributeStore this) (_definition this) ty value;
  Ok (mk store (_definition this)).

Definition setForTopLevel (this : t) (name : string) (value : AttributeValue) : t :=
  mk (TypeAttributeStore.setForTopLevel (_attributeStore this) (_definition this) name value)
     (_definition this).

Definition tryGet (this : t) (ty : Type_) : result (option AttributeValue) :=
  TypeAttributeStore.tryGet (_attributeStore this) (_definition this) ty.

Definition get (this : t) (ty : Type_) : result AttributeValue :=
  v ← tryGet this ty; defined v.

Definition tryGetForTopLevel (this : t) (name : string) : option AttributeValue :=
  TypeAttributeStore.tryGetForTopLevel (_attributeStore this) (_definition this) name.

Definition getForTopLevel (this : t) (name : string) : result AttributeValue :=
  defined (tryGetForTopLevel this name).

End TypeAttributeStoreView.

(** ** TypeGraph: the object *)

(** Modelled from the spec: [Type/TypeBuilder.ts] is not among the sources.
    What an open graph needs of the construction context that owns it are
    the two lookups it delegates to. *)
Record TypeBuilder : Type := {
  builder_typeAtIndex : nat → result Type_;
  builder_atIndex : nat → result (Type_ * TypeAttributes)
}.

Module TypeGraph.

(** The fields of the class, in declaration order.  A [Map<string, Type>]
    is an association list in insertion order; a slot of it holds
    [undefined] ([None]) when a reference was resolved past the end of the
    node array. *)
Record t : Type := mk {
  _typeBuilder : option TypeBuilder;
  _attributeStore : option TypeAttributeStore.t;
  _topLevels : list (string * option Type_);
  _types : option (list Type_);
  _parents : option (list (list Type_));
  _printOnRewrite : bool;
  serial : nat;
  _haveProvenanceAttributes : bool
}.

(** [new TypeGraph(typeBuilder, serial, haveProvenanceAttributes)] *)
Definition new (typeBuilder : TypeBuilder) (serial : nat) (haveProvenanceAttributes : bool) : t :=
  mk (Some typeBuilder) None [] None None false serial haveProvenanceAttributes.

Definition isFrozen (this : t) : bool :=
  match _typeBuilder this with
  | None => true
  | Some _ => false
  end.

Definition attributeStore (this : t) : result TypeAttributeStore.t :=
  defined (_attributeStore this).

Definition typeAtIndex (this : t) (index : nat) : result (option Type_) :=
  match _typeBuilder this with
  | Some typeBuilder => ty ← builder_typeAtIndex typeBuilder index; Ok (Some ty)
  | None => types ← defined (_types this); Ok (types !! index)
  end.

(** Modelled from the spec: [derefTypeRef] of [Type/TypeRef.ts]: validate
    the reference against the graph, then look its index up. *)
Definition derefTypeRef (tref : TypeRef) (graph : t) : result (option Type_) :=
  _ ← assertTypeRefGraph tref (serial graph);
  typeAtIndex graph (typeRefIndex tref).

(** Modelled from the spec: [Type.getChildren] of [Type/Type.ts]: the set
    of the nodes that the child references of [ty] resolve to in its
    graph. *)
Definition getChildren (graph : t) (ty : Type_) : result (list (option Type_)) :=
  children ← mapArray (fun tref => derefTypeRef tref graph) (childRefs ty);
  Ok (newSet children).

(** [freeze] mutates the receiver and may throw half-way: the result is
    the outcome together with the receiver as it is left. *)
Definition freeze (this : t) (topLevels : list (string * TypeRef)) (types : list Type_)
    (typeAttributes : list (option TypeAttributes)) : result unit * t :=
  match assert (negb (isFrozen this)) "Tried to freeze TypeGraph a second time" with
  | Err e => (Err e, this)
  | Ok _ =>
    match forEach (fun ty _ => assertTypeRefGraph (typeRef ty) (serial this)) types tt with
    | Err e => (Err e, this)
    | Ok _ =>
      let this1 :=
        mk None
           (Some (TypeAttributeStore.new (serial this) typeAttributes))
           (_topLevels this)
           (Some types)
           (_parents this) (_printOnRewrite this) (serial this)
           (_haveProvenanceAttributes this) in
      match mapMap topLevels (fun tref => derefTypeRef tref this1) with
      | Err e => (Err e, this1)
      | Ok resolved =>
        (Ok tt,
         mk (_typeBuilder this1) (_attributeStore this1) resolved (_types this1)
            (_parents this1) (_printOnRewrite this1) (serial this1)
            (_haveProvenanceAttributes this1))
      end
    end
  end.

Definition topLevels (this : t) : result (list (string * option Type_)) :=
  _ ← assert (isFrozen this) "Cannot get top-levels from a non-frozen graph";
  Ok (_topLevels this).

Definition atIndex (this : t) (index : nat) : result (option Type_ * TypeAttributes) :=
  match _typeBuilder this with
  | Some typeBuilder => '(ty, a) ← builder_atIndex typeBuilder index; Ok (Some ty, a)
  | None =>
    maybeType ← typeAtIndex this index;
    store ← defined (_attributeStore this);
    match maybeType with
    | Some ty => a ← TypeAttributeStore.attributesForType store ty; Ok (Some ty, a)
    | None => Err JSTypeError
    end
  end.

(** The state of a traversal: the [seen] set and the [types] array. *)
Record Visit : Type := { seen : list Type_; found : list Type_ }.

(** The nested function [addFromType] of [filterTypes].  The recursion of
    the source is bounded by [depth] nested calls here; [filterTypes]
    supplies a bound that is never reached.  Calling it on [undefined]
    throws at [t.getChildren()] at the latest. *)
Fixpoint addFromType (graph : t) (predicate : option (Type_ → bool)) (depth : nat)
    (maybeType : option Type_) (v : Visit) : result Visit :=
  match depth with
  | 0 => Err Diverged
  | S depth' =>
    match maybeType with
    | None => Err JSTypeError
    | Some ty =>
      if decide (ty ∈ seen v) then Ok v
      else
        let seen1 := setAdd (seen v) ty in
        let required :=
          match predicate with
          | None => true
          | Some p => p ty
          end in
        let types1 := if required then found v ++ [ty] else found v in
        children ← getChildren graph ty;
        forEach (addFromType graph predicate depth') children
                {| seen := seen1; found := types1 |}
    end
  end.

(** A bound on the nesting depth of [addFromType]: a root, then every
    node of the node array at most once, then one call that returns at
    once. *)
Definition traversalBound (this : t) : nat :=
  match _types this with
  | Some types => length types + 2
  | None => 2
  end.

Definition filterTypes (this : t) (predicate : option (Type_ → bool)) : result (list Type_) :=
  roots ← topLevels this;
  v ← forEach (fun root => addFromType this predicate (traversalBound this) root.2)
              roots {| seen := []; found := [] |};
  Ok (newSet (found v)).

Definition allTypesUnordered (this : t) : result (list Type_) :=
  _ ← assert (isFrozen this) "Tried to get all graph types before it was frozen";
  types ← defined (_types this);
  Ok (newSet types).

(** The provenance kind is typed to hold sets of numbers; a value of
    another shape under it cannot be iterated as one. *)
Definition allProvenance (this : t) : result (list Z) :=
  _ ← assert (_haveProvenanceAttributes this) "Assertion failed";
  store ← attributeStore this;
  let view := TypeAttributeStoreView.mk store provenanceTypeAttributeKind in
  types ← allTypesUnordered this;
  sets ← mapArray (fun ty =>
            maybeSet ← TypeAttributeStoreView.tryGet view ty;
            match maybeSet with
            | Some (ProvenanceSet markers) => Ok markers
            | Some (OpaqueValue _) => Err JSTypeError
            | None => Ok []
            end) types;
  Ok (setUnionManyInto [] sets).

Definition setPrintOnRewrite (this : t) : t :=
  mk (_typeBuilder this) (_attributeStore this) (_topLevels this) (_types this)
     (_parents this) true (serial this) (_haveProvenanceAttributes this).

(** [builderLostTypeAttributes] is [builder.lostTypeAttributes]. *)
Definition checkLostTypeAttributes (this : t) (builderLostTypeAttributes : bool)
    (newGraph : t) : result unit :=
  if negb (_haveProvenanceAttributes this) || builderLostTypeAttributes then Ok tt
  else
    oldProvenance ← allProvenance this;
    newProvenance ← allProvenance newGraph;
    if negb (bool_decide (length oldProvenance = length newProvenance)) then
      let difference := setSubtract oldProvenance newProvenance in
      let indexes := difference in
      Err (IRTypeAttributesNotPropagated (length difference) indexes)
    else Ok tt.

(** [parents[index] = parents[index].add(p)], for one child [c] of [p]
    with [index = c.index].  A child that is [undefined], or whose
    index has no slot, makes the property access throw. *)
Definition addParent (p : Type_) (c : option Type_) (parents : list (list Type_)) :
    result (list (list Type_)) :=
  match c with
  | None => Err JSTypeError
  | Some child =>
    match parents !! index child with
    | None => Err JSTypeError
    | Some s => Ok (<[index child := setAdd s p]> parents)
    end
  end.

(** The body of [if (this._parents === undefined)] in
    [getParentsOfType], up to the assignment: the reverse adjacency
    array. *)
Definition computeParents (this : t) : result (list (list Type_)) :=
  types ← defined (_types this);
  let parents := (fun _ => []) <$> types in
  all ← allTypesUnordered this;
  forEach (fun p parents =>
             children ← getChildren this p;
             forEach (addParent p) children parents)
          all parents.

(** [getParentsOfType] fills the cache [_parents] on first use: the
    result is the outcome together with the receiver as it is left.  The
    set is [undefined] when [t.index] has no slot. *)
Definition getParentsOfType (this : t) (ty : Type_) : result (option (list Type_)) * t :=
  match assertTypeRefGraph (typeRef ty) (serial this) with
  | Err e => (Err e, this)
  | Ok _ =>
    match _parents this with
    | Some parents => (Ok (parents !! index ty), this)
    | None =>
      match computeParents this with
      | Err e => (Err e, this)
      | Ok parents =>
        (Ok (parents !! index ty),
         mk (_typeBuilder this) (_attributeStore this) (_topLevels this) (_types this)
            (Some parents) (_printOnRewrite this) (serial this)
            (_haveProvenanceAttributes this))
      end
    end
  end.

End TypeGraph.

(** ** The object store and the console *)

(** TypeGraph objects are allocated in [heap] and named by their position
    in it; [console] collects what [console.log] printed. *)
Record World : Type := {
  heap : list TypeGraph.t;
  console : list string
}.

Abbreviation loc := nat (only parsing).

(** A computation that reads and changes the world and may throw; the
    world at the moment of the exception is kept. *)
Definition M (A : Type) : Type := World → result A * World.

Global Instance M_ret : MRet M := fun A a w => (Ok a, w).
Global Instance M_bind : MBind M :=
  fun A B f m w =>
    match m w with
    | (Ok a, w') => f a w'
    | (Err e, w') => (Err e, w')
    end.

Definition liftResult {A} (r : result A) : M A := fun w => (r, w).

Definition readGraph (l : loc) : M TypeGraph.t :=
  fun w =>
    match heap w !! l with
    | Some g => (Ok g, w)
    | None => (Err JSTypeError, w)
    end.

Definition writeGraph (l : loc) (g : TypeGraph.t) : M unit :=
  fun w => (Ok tt, {| heap := <[l := g]> (heap w); console := console w |}).

Definition allocGraph (g : TypeGraph.t) : M loc :=
  fun w => (Ok (length (heap w)), {| heap := heap w ++ [g]; console := console w |}).

Definition consoleLog (line : string) : M unit :=
  fun w => (Ok tt, {| heap := heap w; console := console w ++ [line] |}).

(** [for(;;)]-free loops over arrays inside [M]. *)
Fixpoint forEachM {A : Type} (f : A → M unit) (xs : list A) : M unit :=
  match xs with
  | [] => mret tt
  | x :: rest => _ ← f x; forEachM f rest
  end.

(** ** The collaborators *)

(** What a rewrite or remap builder holds once [finish()] has run: the
    three arguments it gave to [freeze], and the two flags the engine
    reads afterwards. *)
Record BuilderOutput : Type := {
  builtTopLevels : list (string * TypeRef);
  builtTypes : list Type_;
  builtTypeAttributes : list (option TypeAttributes);
  lostTypeAttributes : bool;
  didAddForwardingIntersection : bool
}.

(** Modelled from the spec: [GraphRewriting.ts] is not among the sources.
    A builder is a single-use construction context for one new
    generation: it reads the old generation, is given the new, open
    graph, and on [finish()] freezes that graph with the nodes it built
    and returns it.  [construct] is the node construction itself, which
    may throw. *)
Record BaseGraphRewriteBuilder : Type := {
  asTypeBuilder : TypeBuilder;
  construct : TypeGraph.t → result BuilderOutput
}.

(** Everything the engine receives from the modules it imports and does
    not interpret. *)
Class Collaborators : Type := {
  StringTypeMapping : Type;
  getNoStringTypeMapping : StringTypeMapping;
  (** the type of a [replacer] callback, and the one that panics *)
  Replacer : Type;
  mustNotHappen : Replacer;
  (** [isNamedType] of [Type/TypeUtils] *)
  isNamedType : Type_ → bool;
  (** [new GraphRewriteBuilder(originalGraph, stringTypeMapping,
      alphabetizeProperties, graphHasProvenanceAttributes,
      replacementGroups, debugPrintReconstitution, replacer)] *)
  newGraphRewriteBuilder :
    TypeGraph.t → StringTypeMapping → bool → bool → list (list Type_) → bool → Replacer →
    BaseGraphRewriteBuilder;
  (** [new GraphRemapBuilder(originalGraph, stringTypeMapping,
      alphabetizeProperties, graphHasProvenanceAttributes, map,
      debugPrintRemapping)] *)
  newGraphRemapBuilder :
    TypeGraph.t → StringTypeMapping → bool → bool → list (Type_ * Type_) → bool →
    BaseGraphRewriteBuilder;
  (** [removeIndirectionIntersections] of [Type/TypeGraphUtils] *)
  removeIndirectionIntersections : loc → StringTypeMapping → bool → M loc;
  (** the text of one line of [printGraph]: its number, the node's
      [debugPrintKind] and names, its children and its attributes *)
  renderLine : nat → Type_ → list (option Type_) → TypeAttributes → string
}.

(** ** TypeGraph: the operations that create generations *)

Section Engine.
Context {Co : Collaborators}.

Definition allNamedTypes (this : TypeGraph.t) : result (list Type_) :=
  TypeGraph.filterTypes this (Some isNamedType).

Definition printRewrite (this : loc) (title : string) : M unit :=
  g ← readGraph this;
  if negb (TypeGraph._printOnRewrite g) then mret tt
  else consoleLog (String (Ascii.ascii_of_nat 10) (String.append "# " title)).

Definition setPrintOnRewrite (this : loc) : M unit :=
  g ← readGraph this;
  writeGraph this (TypeGraph.setPrintOnRewrite g).

Definition printGraph (this : loc) : M unit :=
  g ← readGraph this;
  types ← liftResult (defined (TypeGraph._types g));
  forEachM (fun '(i, ty) =>
      children ← liftResult (TypeGraph.getChildren g ty);
      store ← liftResult (TypeGraph.attributeStore g);
      attributes ← liftResult (TypeAttributeStore.attributesForType store ty);
      consoleLog (renderLine i ty children attributes))
    (imap (fun i ty => (i, ty)) types).

Definition freeze (this : loc) (topLevels : list (string * TypeRef)) (types : list Type_)
    (typeAttributes : list (option TypeAttributes)) : M unit :=
  g ← readGraph this;
  let '(outcome, g') := TypeGraph.freeze g topLevels types typeAttributes in
  _ ← writeGraph this g';
  liftResult outcome.

(** Modelled from the spec: [finish()] of the builders.  [typeGraph] is
    [builder.typeGraph]. *)
Definition finish (builder : BaseGraphRewriteBuilder) (typeGraph : loc) :
    M (loc * BuilderOutput) :=
  g ← readGraph typeGraph;
  out ← liftResult (construct builder g);
  _ ← freeze typeGraph (builtTopLevels out) (builtTypes out) (builtTypeAttributes out);
  mret (typeGraph, out).

Definition checkLostTypeAttributes (this : loc) (out : BuilderOutput) (newGraph : loc) :
    M unit :=
  g ← readGraph this;
  g' ← readGraph newGraph;
  liftResult (TypeGraph.checkLostTypeAttributes g (lostTypeAttributes out) g').

Definition rewrite (this : loc) (title : string) (stringTypeMapping : StringTypeMapping)
    (alphabetizeProperties : bool) (replacementGroups : list (list Type_))
    (debugPrintReconstitution : bool) (replacer : Replacer) (force : bool) : M loc :=
  _ ← printRewrite this title;
  if negb force && bool_decide (length replacementGroups = 0) then mret this
  else
    g ← readGraph this;
    let builder :=
      newGraphRewriteBuilder g stringTypeMapping alphabetizeProperties
        (TypeGraph._haveProvenanceAttributes g) replacementGroups
        debugPrintReconstitution replacer in
    typeGraph ← allocGraph (TypeGraph.new (asTypeBuilder builder) (TypeGraph.serial g + 1)
                              (TypeGraph._haveProvenanceAttributes g));
    '(newGraph, out) ← finish builder typeGraph;
    _ ← checkLostTypeAttributes this out newGraph;
    _ ← (if TypeGraph._printOnRewrite g
         then _ ← setPrintOnRewrite newGraph; printGraph newGraph
         else mret tt);
    if negb (didAddForwardingIntersection out) then mret newGraph
    else removeIndirectionIntersections newGraph stringTypeMapping debugPrintReconstitution.

Definition remap (this : loc) (title : string) (stringTypeMapping : StringTypeMapping)
    (alphabetizeProperties : bool) (map : list (Type_ * Type_))
    (debugPrintRemapping : bool) (force : bool) : M loc :=
  _ ← printRewrite this title;
  if negb force && bool_decide (length map = 0) then mret this
  else
    g ← readGraph this;
    let builder :=
      newGraphRemapBuilder g stringTypeMapping alphabetizeProperties
        (TypeGraph._haveProvenanceAttributes g) map debugPrintRemapping in
    typeGraph ← allocGraph (TypeGraph.new (asTypeBuilder builder) (TypeGraph.serial g + 1)
                              (TypeGraph._haveProvenanceAttributes g));
    '(newGraph, out) ← finish builder typeGraph;
    _ ← checkLostTypeAttributes this out newGraph;
    _ ← (if TypeGraph._printOnRewrite g
         then _ ← setPrintOnRewrite newGraph; printGraph newGraph
         else mret tt);
    _ ← liftResult (assert (negb (didAddForwardingIntersection out)) "Assertion failed");
    mret newGraph.

Definition garbageCollect (this : loc) (alphabetizeProperties : bool)
    (debugPrintReconstitution : bool) : M loc :=
  newGraph ← remap this "GC" getNoStringTypeMapping alphabetizeProperties []
                   debugPrintReconstitution true;
  mret newGraph.

Definition allTypesUnordered (this : loc) : M (list Type_) :=
  g ← readGraph this;
  liftResult (TypeGraph.allTypesUnordered g).

(** The [for (;;)] of [rewriteFixedPoint], cut after [rounds] iterations;
    [graph] is the local variable of that name. *)
Fixpoint rewriteFixedPointLoop (rounds : nat) (this : loc) (graph : loc)
    (alphabetizeProperties : bool) (debugPrintReconstitution : bool) : M loc :=
  match rounds with
  | 0 => liftResult (Err Diverged)
  | S rounds' =>
    newGraph ← rewrite this "fixed-point" getNoStringTypeMapping alphabetizeProperties []
                       debugPrintReconstitution mustNotHappen true;
    before ← allTypesUnordered graph;
    after ← allTypesUnordered newGraph;
    if bool_decide (length before = length after) then mret graph
    else rewriteFixedPointLoop rounds' this newGraph alphabetizeProperties
           debugPrintReconstitution
  end.

Definition rewriteFixedPoint (rounds : nat) (this : loc) (alphabetizeProperties : bool)
    (debugPrintReconstitution : bool) : M loc :=
  rewriteFixedPointLoop rounds this this alphabetizeProperties debugPrintReconstitution.

End Engine.

(** ** Vocabulary of the properties *)

Module Import Vocabulary.
Import TypeGraph.

(** The representation invariant of a TypeGraph object: [_typeBuilder]
    is only cleared by [freeze], which installs the node array and the
    attribute store first. *)
Definition consistent (g : TypeGraph.t) : Prop :=
  isFrozen g = true → is_Some (_types g) ∧ is_Some (_attributeStore g).

(** The node array of a graph, empty while there is none. *)
Definition nodes (g : TypeGraph.t) : list Type_ := default [] (_types g).

(** [c] is among [p.getChildren()]. *)
Definition childOf (g : TypeGraph.t) (p c : Type_) : Prop :=
  ∃ children, getChildren g p = Ok children ∧ Some c ∈ children.

(** [ty] can be reached from a top-level root through children. *)
Definition reachable (g : TypeGraph.t) (ty : Type_) : Prop :=
  ∃ name root, (name, Some root) ∈ _topLevels g ∧ rtc (childOf g) root ty.

(** Every child reference of [ty] belongs to [g] and points into its
    node array. *)
Definition validChildRefs (g : TypeGraph.t) (ty : Type_) : Prop :=
  ∀ tref, tref ∈ childRefs ty →
    refSerial tref = serial g ∧ refIndex tref < length (nodes g).

(** A frozen graph all of whose references resolve: what a builder
    hands over. *)
Definition resolved (g : TypeGraph.t) : Prop :=
  isFrozen g = true ∧
  is_Some (_types g) ∧
  (∀ ty, ty ∈ nodes g → validChildRefs g ty) ∧
  (∀ name root, (name, root) ∈ _topLevels g → ∃ ty, root = Some ty ∧ validChildRefs g ty).

(** Origin marker [m] is in the provenance set attached to node [ty]. *)
Definition hasMarker (g : TypeGraph.t) (ty : Type_) (m : Z) : Prop :=
  ∃ store markers,
    _attributeStore g = Some store ∧
    TypeAttributeStore.tryGet store provenanceTypeAttributeKind ty
      = Ok (Some (ProvenanceSet markers)) ∧
    m ∈ markers.

(** Origin marker [m] is in the union of the per-node provenance sets. *)
Definition inProvenanceUnion (g : TypeGraph.t) (m : Z) : Prop :=
  ∃ ty, ty ∈ nodes g ∧ hasMarker g ty m.

(** Whether [filterTypes] keeps a node it visits. *)
Definition requiredBy (predicate : option (Type_ → bool)) (ty : Type_) : bool :=
  match predicate with
  | None => true
  | Some p => p ty
  end.

(** The children of [ty] are all nodes, and all in the set [s]. *)
Definition expandedIn (g : TypeGraph.t) (s : list Type_) (ty : Type_) : Prop :=
  ∃ children, getChildren g ty = Ok children ∧
    ∀ c, c ∈ children → ∃ z, c = Some z ∧ z ∈ s.

(** The [types] array holds the kept nodes of the [seen] set, once each. *)
Definition foundInvariant (predicate : option (Type_ → bool)) (v : Visit) : Prop :=
  NoDup (found v) ∧
  ∀ ty, ty ∈ found v ↔ ty ∈ seen v ∧ requiredBy predicate ty = true.

(** What a completed call [addFromType(ty)] has done to the traversal
    state. *)
Definition visitStep (g : TypeGraph.t) (predicate : option (Type_ → bool))
    (ty : Type_) (v v' : Visit) : Prop :=
  ty ∈ seen v' ∧
  seen v ⊆ seen v' ∧
  (∀ y, y ∈ seen v' → y ∉ seen v → expandedIn g (seen v') y ∧ rtc (childOf g) ty y) ∧
  (foundInvariant predicate v → foundInvariant predicate v').

(** What a completed loop of [addFromType] over [cs] has done to it. *)
Definition visitAll (g : TypeGraph.t) (predicate : option (Type_ → bool))
    (cs : list (option Type_)) (v v' : Visit) : Prop :=
  seen v ⊆ seen v' ∧
  (∀ c, c ∈ cs → ∃ z, c = Some z ∧ z ∈ seen v') ∧
  (∀ y, y ∈ seen v' → y ∉ seen v →
        expandedIn g (seen v') y ∧ ∃ z, Some z ∈ cs ∧ rtc (childOf g) z y) ∧
  (foundInvariant predicate v → foundInvariant predicate v').

(** The number of nodes of the node array that a traversal has not yet
    marked. *)
Definition unseen (g : TypeGraph.t) (s : list Type_) : nat :=
  length (list_difference (newSet (nodes g)) s).

(** A call either returns, growing the [seen] set, or throws a real
    exception: it does not run out of nesting depth. *)
Definition returnsOrThrows (v : Visit) (r : result Visit) : Prop :=
  match r with
  | Ok v' => seen v ⊆ seen v'
  | Err e => e ≠ Diverged
  end.

(** Every node of the node array sits at the position that its own
    reference names. *)
Definition positionsAgree (g : TypeGraph.t) : Prop :=
  ∀ i ty, nodes g !! i = Some ty → index ty = i.

(** Node [x] has a child whose index is [j]. *)
Definition hasChildAt (g : TypeGraph.t) (x : Type_) (j : nat) : Prop :=
  ∃ children z, getChildren g x = Ok children ∧ Some z ∈ children ∧ index z = j.

End Vocabulary.

(** ** Vocabulary of the properties of the engine *)

(** The object at location [l] is [g]. *)
Definition holds (l : loc) (g : TypeGraph.t) (w : World) : Prop := heap w !! l = Some g.

(** Running [m] from a world that satisfies [I] leaves a world that
    satisfies [I], whatever the outcome, and a value that satisfies
    [post] if it returns one. *)
Definition keeps {A} (I : World → Prop) (post : A → Prop) (m : M A) : Prop :=
  ∀ w, I w → I (m w).2 ∧ ∀ a, (m w).1 = Ok a → post a.

(** [m1] and [m2] have the same outcome and leave the same objects
    whenever they start from the same objects, whatever the console
    holds. *)
Definition alike {A} (m1 m2 : M A) : Prop :=
  ∀ w1 w2, heap w1 = heap w2 → (m1 w1).1 = (m2 w2).1 ∧ heap (m1 w1).2 = heap (m2 w2).2.

(** Modelled from the spec: generations never share mutable state, so
    the corrective pass over the new graph leaves every other graph
    object as it is. *)
Class LawfulCollaborators {Co : Collaborators} : Prop := {
  removeIndirectionIntersections_frame :
    ∀ (this : loc) (g : TypeGraph.t) (graph : loc) (stringTypeMapping : StringTypeMapping)
      (debug : bool),
      graph ≠ this →
      keeps (holds this g) (fun _ => True)
        (removeIndirectionIntersections graph stringTypeMapping debug)
}.

Section EngineVocabulary.
Context {Co : Collaborators}.

(** The part that [rewrite] and [remap] have in common: allocate the
    next generation, let the builder finish it, check for lost
    attributes, print. *)
Definition buildGeneration (this : loc) (g : TypeGraph.t) (builder : BaseGraphRewriteBuilder) :
    M (loc * BuilderOutput) :=
  typeGraph ← allocGraph (TypeGraph.new (asTypeBuilder builder) (TypeGraph.serial g + 1)
                            (TypeGraph._haveProvenanceAttributes g));
  '(newGraph, out) ← finish builder typeGraph;
  _ ← checkLostTypeAttributes this out newGraph;
  _ ← (if TypeGraph._printOnRewrite g
       then _ ← setPrintOnRewrite newGraph; printGraph newGraph
       else mret tt);
  mret (newGraph, out).

(** The fixed-point iteration as the specification words it: every
    round rewrites the graph that the previous round produced. *)
Fixpoint iterateToFixedPoint (rounds : nat) (graph : loc) (alphabetizeProperties : bool)
    (debugPrintReconstitution : bool) : M loc :=
  match rounds with
  | 0 => liftResult (Err Diverged)
  | S rounds' =>
    newGraph ← rewrite graph "fixed-point" getNoStringTypeMapping alphabetizeProperties []
                       debugPrintReconstitution mustNotHappen true;
    before ← allTypesUnordered graph;
    after ← allTypesUnordered newGraph;
    if bool_decide (length before = length after) then mret graph
    else iterateToFixedPoint rounds' newGraph alphabetizeProperties debugPrintReconstitution
  end.

(** The number of nodes of the graph object at [l]. *)
Definition nodeCount (w : World) (l : loc) : option nat :=
  g ← heap w !! l; Some (length (newSet (nodes g))).


End EngineVocabulary.

(** * Concrete scenarios *)

(** The graphs, stores and collaborators on which the properties below are
    exercised. *)
Module Scenario.

Definition node (graphSerial i : nat) (kind : string) (children : list nat) : Type_ :=
  {| oid := graphSerial * 100 + i;
     typeRef := {| refSerial := graphSerial; refIndex := i |};
     kind := kind;
     childRefs := (fun c => {| refSerial := graphSerial; refIndex := c |}) <$> children |}.

(** A store of generation 0 without any attribute yet. *)
Definition emptyStore : TypeAttributeStore.t := TypeAttributeStore.new 0 [].

Definition nodeA : Type_ := node 0 0 "class" [1].
Definition nodeB : Type_ := node 0 1 "class" [2].
Definition nodeC : Type_ := node 0 2 "string" [].

(** Modelled from the spec: the merge rule of the provenance kind, whose
    sets of origin markers are propagated through attribute merging: two
    provenance sets merge into their union. *)
Definition combineProvenance (a b : AttributeValue) : AttributeValue :=
  match a, b with
  | ProvenanceSet x, ProvenanceSet y => ProvenanceSet (setUnionManyInto [] [x; y])
  | _, _ => b
  end.

(** A construction context that holds no node yet. *)
Definition idleBuilder : TypeBuilder :=
  {| builder_typeAtIndex := fun _ =>
       Err (FatalInvariantViolation "Trying to deref an undefined type in a type builder");
     builder_atIndex := fun _ =>
       Err (FatalInvariantViolation "Trying to deref an undefined type in a type builder") |}.

Definition ref (graphSerial i : nat) : TypeRef :=
  {| refSerial := graphSerial; refIndex := i |}.

(** Generation 0 while it is open. *)
Definition openGraph : TypeGraph.t := TypeGraph.new idleBuilder 0 false.

(** The example of the specification: root "R" is A, A has child B, B has
    child C, C has none. *)
Definition chainGraph : TypeGraph.t :=
  (TypeGraph.freeze openGraph [("R", ref 0 0)] [nodeA; nodeB; nodeC] []).2.

(** The same nodes with the root repointed to B, which leaves A
    unreachable. *)
Definition repointedGraph : TypeGraph.t :=
  (TypeGraph.freeze openGraph [("R", ref 0 1)] [nodeA; nodeB; nodeC] []).2.

(** A frozen one-node graph of the given generation, built with
    provenance tracking, whose node carries the given origin markers. *)
Definition markedGraph (graphSerial : nat) (markers : list Z) : TypeGraph.t :=
  (TypeGraph.freeze (TypeGraph.new idleBuilder graphSerial true)
     [("R", ref graphSerial 0)]
     [node graphSerial 0 "class" []]
     [Some {[ provenanceTypeAttributeKind := ProvenanceSet markers ]}]).2.

(** A graph with a cycle: X and Y are each other's child; Y also has
    the unnamed child Z; the root is X. *)
Definition nodeX : Type_ := node 0 0 "class" [1].
Definition nodeY : Type_ := node 0 1 "object" [0; 2].
Definition nodeZ : Type_ := node 0 2 "string" [].

Definition cyclicGraph : TypeGraph.t :=
  (TypeGraph.freeze openGraph [("R", ref 0 0)] [nodeX; nodeY; nodeZ] []).2.

(** A rebuild that needs several passes: each pass unifies one more
    node away, down to a single node, so that a pass over its own
    result still changes the node count. *)
Definition shrinkingBuilder (originalGraph : TypeGraph.t) : BaseGraphRewriteBuilder :=
  {| asTypeBuilder := idleBuilder;
     construct := fun typeGraph =>
       let count := Nat.max 1 (length (nodes originalGraph) - 1) in
       Ok {| builtTopLevels := [("R", ref (TypeGraph.serial typeGraph) 0)];
             builtTypes :=
               (fun i => node (TypeGraph.serial typeGraph) i "class" []) <$> seq 0 count;
             builtTypeAttributes := [];
             lostTypeAttributes := false;
             didAddForwardingIntersection := false |} |}.

(** Collaborators for the scenarios: the named kinds of the type model,
    the rebuild above for both builders, and a corrective pass that
    finds nothing to correct. *)
Definition collaborators : Collaborators :=
  {| StringTypeMapping := unit;
     getNoStringTypeMapping := tt;
     Replacer := unit;
     mustNotHappen := tt;
     isNamedType := fun ty => bool_decide (kind ty ∈ ["class"; "union"; "enum"; "object"]);
     newGraphRewriteBuilder := fun g _ _ _ _ _ _ => shrinkingBuilder g;
     newGraphRemapBuilder := fun g _ _ _ _ _ => shrinkingBuilder g;
     removeIndirectionIntersections := fun graph _ _ => mret graph;
     renderLine := fun _ ty _ _ => kind ty |}.

(** A frozen generation 0 of four nodes, alone in the store. *)
Definition fourNodes : TypeGraph.t :=
  (TypeGraph.freeze openGraph [("R", ref 0 0)]
     ((fun i => node 0 i "class" []) <$> seq 0 4) []).2.

Definition startWorld : World := {| heap := [fourNodes]; console := [] |}.

(** A node that carries the reference of generation 7. *)
Definition strayNode : Type_ := node 7 0 "class" [].

(** A frozen generation 0 of a single node, alone in the store: the
    rebuild above leaves its node count as it is. *)
Definition oneNode : TypeGraph.t :=
  (TypeGraph.freeze openGraph [("R", ref 0 0)] [node 0 0 "class" []] []).2.

Definition stableWorld : World := {| heap := [oneNode]; console := [] |}.

(** A builder that reports a forwarding intersection. *)
Definition forwardingBuilder (originalGraph : TypeGraph.t) : BaseGraphRewriteBuilder :=
  {| asTypeBuilder := idleBuilder;
     construct := fun typeGraph =>
       Ok {| builtTopLevels := [("R", ref (TypeGraph.serial typeGraph) 0)];
             builtTypes := [node (TypeGraph.serial typeGraph) 0 "class" []];
             builtTypeAttributes := [];
             lostTypeAttributes := false;
             didAddForwardingIntersection := true |} |}.

Definition forwardingCollaborators : Collaborators :=
  {| StringTypeMapping := unit;
     getNoStringTypeMapping := tt;
     Replacer := unit;
     mustNotHappen := tt;
     isNamedType := fun _ => true;
     newGraphRewriteBuilder := fun g _ _ _ _ _ _ => forwardingBuilder g;
     newGraphRemapBuilder := fun g _ _ _ _ _ => forwardingBuilder g;
     removeIndirectionIntersections := fun graph _ _ => mret graph;
     renderLine := fun _ ty _ _ => kind ty |}.

(** A store that holds one frozen graph built with provenance tracking,
    whose node carries the origin markers 1 and 2. *)
Definition markedWorld : World := {| heap := [markedGraph 0 [1%Z; 2%Z]]; console := [] |}.

End Scenario.

(** * Properties *)

(** ** JavaScript sets *)

Section JSSetFacts.
Context {A : Type} `{EqDecision A}.
Implicit Types (s xs src diff : list A) (x y : A).

Lemma elem_of_setAdd s x y : y ∈ setAdd s x ↔ y ∈ s ∨ y = x.
Proof.
  unfold setAdd. case_decide as Hx.
  - split; [by left | intros [?| ->]; done].
  - rewrite elem_of_app, list_elem_of_singleton. done.
Qed.

Lemma NoDup_setAdd s x : NoDup s → NoDup (setAdd s x).
Proof.
  intros Hs. unfold setAdd. case_decide as Hx; [done|].
  apply NoDup_app. split_and!; [done | | apply NoDup_singleton].
  intros y Hy ->%list_elem_of_singleton. done.
Qed.

Lemma setAdd_notin s x : x ∉ s → setAdd s x = s ++ [x].
Proof. intros Hx. unfold setAdd. by rewrite decide_False. Qed.

Lemma setAdd_in s x : x ∈ s → setAdd s x = s.
Proof. intros Hx. unfold setAdd. by rewrite decide_True. Qed.

Lemma elem_of_setAddAll xs : ∀ s y, y ∈ setAddAll s xs ↔ y ∈ s ∨ y ∈ xs.
Proof.
  induction xs as [|x xs IH]; intros s y; simpl.
  - rewrite elem_of_nil. tauto.
  - unfold setAddAll in *. simpl. rewrite IH, elem_of_setAdd, elem_of_cons. tauto.
Qed.

Lemma NoDup_setAddAll xs : ∀ s, NoDup s → NoDup (setAddAll s xs).
Proof.
  induction xs as [|x xs IH]; intros s Hs; [done|].
  apply IH, NoDup_setAdd, Hs.
Qed.

Lemma setAddAll_NoDup_fresh xs :
  ∀ s, NoDup xs → (∀ x, x ∈ xs → x ∉ s) → setAddAll s xs = s ++ xs.
Proof.
  induction xs as [|x xs IH]; intros s Hnd Hfresh; simpl.
  - by rewrite app_nil_r.
  - apply NoDup_cons in Hnd as [Hx Hnd].
    unfold setAddAll in *. simpl.
    rewrite setAdd_notin by (apply Hfresh; left).
    rewrite IH, <- app_assoc; [done | done |].
    intros y Hy. rewrite elem_of_app, list_elem_of_singleton.
    intros [Hin | ->]; [|done].
    by apply (Hfresh y); [right|].
Qed.

Lemma elem_of_newSet xs y : y ∈ newSet xs ↔ y ∈ xs.
Proof. unfold newSet. rewrite elem_of_setAddAll, elem_of_nil. tauto. Qed.

Lemma NoDup_newSet xs : NoDup (newSet xs).
Proof. apply NoDup_setAddAll, NoDup_nil_2. Qed.

Lemma newSet_NoDup xs : NoDup xs → newSet xs = xs.
Proof.
  intros Hnd. unfold newSet. rewrite setAddAll_NoDup_fresh; [done | done |].
  intros x _. apply not_elem_of_nil.
Qed.

Lemma elem_of_setUnionManyInto (srcs : list (list A)) :
  ∀ (dest : list A) y, y ∈ setUnionManyInto dest srcs ↔ y ∈ dest ∨ ∃ src, src ∈ srcs ∧ y ∈ src.
Proof.
  induction srcs as [|src srcs IH]; intros dest y; simpl.
  - split; [by left | intros [?|(src & Hsrc & _)]; [done|]].
    by apply elem_of_nil in Hsrc.
  - unfold setUnionManyInto in *. simpl. rewrite IH, elem_of_setAddAll. split.
    + intros [[?|?]|(s & ? & ?)]; [by left | right; exists src | right; exists s].
      * split; [left | done].
      * split; [by right | done].
    + intros [?|(s & [->|?]%elem_of_cons & ?)]; [by left; left | by left; right |].
      right. by exists s.
Qed.

Lemma NoDup_setUnionManyInto (srcs : list (list A)) : ∀ dest : list A, NoDup dest → NoDup (setUnionManyInto dest srcs).
Proof.
  induction srcs as [|src srcs IH]; intros dest Hd; [done|].
  apply IH, NoDup_setAddAll, Hd.
Qed.

Lemma elem_of_setDelete s x y : y ∈ setDelete s x ↔ y ∈ s ∧ y ≠ x.
Proof. unfold setDelete. rewrite list_elem_of_filter. tauto. Qed.

Lemma elem_of_foldl_setDelete diff :
  ∀ s y, y ∈ foldl setDelete s diff ↔ y ∈ s ∧ y ∉ diff.
Proof.
  induction diff as [|x diff IH]; intros s y; simpl.
  - split; [intros ?; split; [done | apply not_elem_of_nil] | tauto].
  - rewrite IH, elem_of_setDelete, not_elem_of_cons. tauto.
Qed.

Lemma NoDup_foldl_setDelete diff : ∀ s, NoDup s → NoDup (foldl setDelete s diff).
Proof.
  induction diff as [|x diff IH]; intros s Hs; [done|].
  simpl. apply IH. unfold setDelete. by apply NoDup_filter.
Qed.

Lemma elem_of_setSubtract src diff y : y ∈ setSubtract src diff ↔ y ∈ src ∧ y ∉ diff.
Proof. unfold setSubtract. by rewrite elem_of_foldl_setDelete, elem_of_newSet. Qed.

Lemma NoDup_setSubtract src diff : NoDup (setSubtract src diff).
Proof. apply NoDup_foldl_setDelete, NoDup_newSet. Qed.

Lemma setSubtract_nil_iff src diff : setSubtract src diff = [] ↔ ∀ y, y ∈ src → y ∈ diff.
Proof.
  split.
  - intros Hnil y Hy. destruct (decide (y ∈ diff)) as [|Hn]; [done|].
    assert (y ∈ setSubtract src diff) as Hin by by apply elem_of_setSubtract.
    rewrite Hnil in Hin. by apply elem_of_nil in Hin.
  - intros Hsub. destruct (setSubtract src diff) as [|y l] eqn:E; [done|].
    assert (y ∈ setSubtract src diff) as Hin by (rewrite E; left).
    apply elem_of_setSubtract in Hin as [Hin Hn]. by apply Hsub in Hin.
Qed.

End JSSetFacts.

(** ** The exception monad *)

Lemma assert_true message : assert true message = Ok tt.
Proof. done. Qed.

Lemma assertTypeRefGraph_ok tref graphSerial :
  refSerial tref = graphSerial → assertTypeRefGraph tref graphSerial = Ok tt.
Proof. intros E. unfold assertTypeRefGraph. by rewrite bool_decide_eq_true_2. Qed.

Lemma assertTypeRefGraph_err tref graphSerial :
  refSerial tref ≠ graphSerial →
  assertTypeRefGraph tref graphSerial =
    Err (FatalInvariantViolation "Mixing the wrong type reference and graph").
Proof. intros E. unfold assertTypeRefGraph. by rewrite bool_decide_eq_false_2. Qed.

Lemma assertTypeRefGraph_inv tref graphSerial u :
  assertTypeRefGraph tref graphSerial = Ok u → refSerial tref = graphSerial.
Proof.
  unfold assertTypeRefGraph. case_bool_decide; [done|]. discriminate.
Qed.

(** ** TypeAttributeStore *)

Section StoreFacts.
Import TypeAttributeStore.

Lemma getTypeIndex_ok this ty :
  refSerial (typeRef ty) = _typeGraph this → getTypeIndex this ty = Ok (index ty).
Proof.
  intros E. unfold getTypeIndex. by rewrite (assertTypeRefGraph_ok _ _ E).
Qed.

Lemma length_grow values i : i < length (grow values i).
Proof. unfold grow. rewrite length_app, length_replicate. lia. Qed.

Lemma grow_id values i : i < length values → grow values i = values.
Proof.
  intros Hi. unfold grow.
  replace (S i - length values) with 0 by lia. apply app_nil_r.
Qed.

Lemma lookup_grow_same values i : grow values i !! i ≫= id = values !! i ≫= id.
Proof.
  unfold grow. destruct (decide (i < length values)) as [Hi|Hi].
  - by rewrite lookup_app_l.
  - rewrite lookup_app_r by lia. rewrite (lookup_ge_None_2 values) by lia.
    destruct (replicate _ _ !! _) as [o|] eqn:E; [|done].
    by apply lookup_replicate in E as [-> _].
Qed.

Lemma attributesForType_ok this ty :
  refSerial (typeRef ty) = _typeGraph this →
  attributesForType this ty = Ok (default ∅ (_values this !! index ty ≫= id)).
Proof.
  intros E. unfold attributesForType. rewrite (getTypeIndex_ok _ _ E). simpl.
  by destruct (_values this !! index ty) as [[a|]|].
Qed.

(** One [set] succeeds on a reference of the store's graph, and leaves in
    the slot of the node the old attribute set with the entry of [kind]
    replaced. *)
Lemma set_ok this kind ty value :
  refSerial (typeRef ty) = _typeGraph this →
  set this kind ty value =
    Ok (mk (_typeGraph this)
           (<[index ty := Some (<[kind := value]> (default ∅ (_values this !! index ty ≫= id)))]>
              (grow (_values this) (index ty)))
           (_topLevelValues this)).
Proof.
  intros E. unfold set. rewrite (getTypeIndex_ok _ _ E). simpl.
  rewrite attributesForType_ok by done. simpl.
  by rewrite lookup_grow_same.
Qed.

Lemma attributesForType_set this this' kind ty value :
  refSerial (typeRef ty) = _typeGraph this →
  set this kind ty value = Ok this' →
  _typeGraph this' = _typeGraph this ∧
  ∃ old, attributesForType this ty = Ok old ∧
         attributesForType this' ty = Ok (<[kind := value]> old).
Proof.
  intros E Hset. rewrite set_ok in Hset by done. injection Hset as <-.
  split; [done|]. eexists. split; [by apply attributesForType_ok|].
  rewrite attributesForType_ok by done. simpl.
  rewrite list_lookup_insert_eq by apply length_grow. done.
Qed.

End StoreFacts.

(** ** C1: two writes of one attribute kind *)

(** C1, as amended.  On a node whose reference belongs to the store's
    graph, [set(kind, t, v1)] followed by [set(kind, t, v2)] both succeed
    and leave [tryGet(kind, t)] equal to [v2]: the entry of [kind] is
    replaced, whatever the kind, and the entries of the other kinds of
    the node's attribute set are the ones it had. *)
Theorem set_twice_last_write_wins (this : TypeAttributeStore.t) (kind : string)
    (ty : Type_) (v1 v2 : AttributeValue) :
  refSerial (typeRef ty) = TypeAttributeStore._typeGraph this →
  ∃ s1 s2,
    TypeAttributeStore.set this kind ty v1 = Ok s1 ∧
    TypeAttributeStore.set s1 kind ty v2 = Ok s2 ∧
    TypeAttributeStore.tryGet s2 kind ty = Ok (Some v2) ∧
    ∀ kind', kind' ≠ kind →
      TypeAttributeStore.tryGet s2 kind' ty = TypeAttributeStore.tryGet this kind' ty.
Proof.
  intros E.
  destruct (TypeAttributeStore.set this kind ty v1) as [s1|e] eqn:H1;
    [|by rewrite set_ok in H1].
  destruct (attributesForType_set _ _ _ _ _ E H1) as (E1 & a0 & Ha0 & Ha1).
  assert (refSerial (typeRef ty) = TypeAttributeStore._typeGraph s1) as E' by congruence.
  destruct (TypeAttributeStore.set s1 kind ty v2) as [s2|e] eqn:H2;
    [|by rewrite set_ok in H2].
  destruct (attributesForType_set _ _ _ _ _ E' H2) as (E2 & a1 & Ha1' & Ha2).
  assert (a1 = <[kind:=v1]> a0) as -> by congruence.
  exists s1, s2. split_and!; [done | done | |].
  - unfold TypeAttributeStore.tryGet, TypeAttributeStore.tryGetInMap.
    rewrite Ha2. simpl. by rewrite lookup_insert_eq.
  - intros kind' Hne.
    unfold TypeAttributeStore.tryGet, TypeAttributeStore.tryGetInMap.
    rewrite Ha2, Ha0. simpl. by rewrite !lookup_insert_ne.
Qed.

Lemma set_twice_last_write_wins_witness :
  ∃ s1 s2,
    TypeAttributeStore.set Scenario.emptyStore "kindX" Scenario.nodeA (OpaqueValue "v1") = Ok s1 ∧
    TypeAttributeStore.set s1 "kindX" Scenario.nodeA (OpaqueValue "v2") = Ok s2 ∧
    TypeAttributeStore.tryGet s2 "kindX" Scenario.nodeA = Ok (Some (OpaqueValue "v2")) ∧
    ∀ kind', kind' ≠ "kindX" →
      TypeAttributeStore.tryGet s2 kind' Scenario.nodeA =
      TypeAttributeStore.tryGet Scenario.emptyStore kind' Scenario.nodeA.
Proof.
  apply (set_twice_last_write_wins Scenario.emptyStore "kindX" Scenario.nodeA).
  reflexivity.
Defined.

(** C1, as stated, fails: for the provenance kind, whose merge rule is set
    union, writing [{1}] and then [{2}] leaves [{2}], not the merged
    [{1, 2}]. *)
Lemma set_twice_does_not_merge :
  ∃ s1 s2,
    TypeAttributeStore.set Scenario.emptyStore provenanceTypeAttributeKind Scenario.nodeA
      (ProvenanceSet [1%Z]) = Ok s1 ∧
    TypeAttributeStore.set s1 provenanceTypeAttributeKind Scenario.nodeA
      (ProvenanceSet [2%Z]) = Ok s2 ∧
    TypeAttributeStore.tryGet s2 provenanceTypeAttributeKind Scenario.nodeA =
      Ok (Some (ProvenanceSet [2%Z])) ∧
    Scenario.combineProvenance (ProvenanceSet [1%Z]) (ProvenanceSet [2%Z]) =
      ProvenanceSet [1%Z; 2%Z] ∧
    TypeAttributeStore.tryGet s2 provenanceTypeAttributeKind Scenario.nodeA ≠
      Ok (Some (Scenario.combineProvenance (ProvenanceSet [1%Z]) (ProvenanceSet [2%Z]))).
Proof.
  eexists _, _. split_and!; [reflexivity | reflexivity | | |].
  - vm_compute. reflexivity.
  - vm_compute. reflexivity.
  - vm_compute. discriminate.
Qed.

(** ** Loops that may throw *)

Lemma forEach_unit_ok {A} (f : A → result unit) (xs : list A) :
  (∀ x, x ∈ xs → f x = Ok tt) → forEach (fun x _ => f x) xs tt = Ok tt.
Proof.
  induction xs as [|x xs IH]; intros Hall; [done|]. simpl.
  rewrite (Hall x) by left. simpl. apply IH. intros y Hy. apply Hall. by right.
Qed.

Lemma mapArray_ok {A B} (f : A → result B) (g : A → B) (xs : list A) :
  (∀ x, x ∈ xs → f x = Ok (g x)) → mapArray f xs = Ok (g <$> xs).
Proof.
  induction xs as [|x xs IH]; intros Hall; [done|]. simpl.
  rewrite (Hall x) by left. simpl. rewrite IH; [done|].
  intros y Hy. apply Hall. by right.
Qed.

Lemma mapArray_inv {A B} (f : A → result B) (xs : list A) (ys : list B) :
  mapArray f xs = Ok ys → Forall2 (fun x y => f x = Ok y) xs ys.
Proof.
  revert ys. induction xs as [|x xs IH]; intros ys Hmap; simpl in Hmap.
  - injection Hmap as <-. constructor.
  - destruct (f x) as [y|e] eqn:Hy; [|done]. simpl in Hmap.
    destruct (mapArray f xs) as [ys'|e] eqn:Hys; [|done]. simpl in Hmap.
    injection Hmap as <-. constructor; [done | by apply IH].
Qed.

(** ** C8: freezing, and the queries that need a frozen graph *)

Section FreezeFacts.
Import TypeGraph.

Lemma new_is_open typeBuilder graphSerial provenance :
  isFrozen (new typeBuilder graphSerial provenance) = false.
Proof. done. Qed.

Lemma new_consistent typeBuilder graphSerial provenance :
  consistent (new typeBuilder graphSerial provenance).
Proof. intros Hf. discriminate. Qed.

Lemma freeze_frozen this topLevels types typeAttributes :
  isFrozen this = true →
  freeze this topLevels types typeAttributes =
    (Err (FatalInvariantViolation "Tried to freeze TypeGraph a second time"), this).
Proof. intros Hf. unfold freeze. by rewrite Hf. Qed.

(** On an open graph, [freeze] succeeds when the references of the nodes
    and of the top-levels belong to the graph, and leaves it frozen with
    the given node array and attribute array. *)
Lemma freeze_open this topLevels types typeAttributes :
  isFrozen this = false →
  (∀ ty, ty ∈ types → refSerial (typeRef ty) = serial this) →
  (∀ name tref, (name, tref) ∈ topLevels → refSerial tref = serial this) →
  freeze this topLevels types typeAttributes =
    (Ok tt,
     mk None (Some (TypeAttributeStore.new (serial this) typeAttributes))
        ((fun kv => (kv.1, types !! typeRefIndex kv.2)) <$> topLevels)
        (Some types) (_parents this) (_printOnRewrite this) (serial this)
        (_haveProvenanceAttributes this)).
Proof.
  intros Hopen Htypes Htops. unfold freeze. rewrite Hopen. simpl.
  rewrite (forEach_unit_ok (fun ty => assertTypeRefGraph (typeRef ty) (serial this)));
    [|intros ty Hty; by apply assertTypeRefGraph_ok, Htypes].
  unfold mapMap.
  rewrite (mapArray_ok _ (fun kv => (kv.1, types !! typeRefIndex kv.2))); [done|].
  intros [name tref] Hin. simpl. unfold derefTypeRef. simpl.
  rewrite assertTypeRefGraph_ok by (by eapply Htops). done.
Qed.

(** Whatever the outcome, [freeze] leaves a consistent object, with the
    serial it had. *)
Lemma freeze_consistent this topLevels types typeAttributes :
  consistent this →
  consistent (freeze this topLevels types typeAttributes).2 ∧
  serial (freeze this topLevels types typeAttributes).2 = serial this.
Proof.
  intros Hc. unfold freeze.
  destruct (assert _ _) as [[]|e]; [|done].
  destruct (forEach _ _ _) as [[]|e]; [|done].
  destruct (mapMap _ _) as [tl|e]; simpl; (split; [|done]); intros _; simpl; eauto.
Qed.

Lemma topLevels_frozen this : isFrozen this = true → topLevels this = Ok (_topLevels this).
Proof. intros Hf. unfold topLevels. by rewrite Hf. Qed.

Lemma topLevels_open this :
  isFrozen this = false →
  topLevels this = Err (FatalInvariantViolation "Cannot get top-levels from a non-frozen graph").
Proof. intros Hf. unfold topLevels. by rewrite Hf. Qed.

Lemma allTypesUnordered_frozen this types :
  isFrozen this = true → _types this = Some types →
  allTypesUnordered this = Ok (newSet types).
Proof. intros Hf Ht. unfold allTypesUnordered. by rewrite Hf, Ht. Qed.

Lemma allTypesUnordered_open this :
  isFrozen this = false →
  allTypesUnordered this =
    Err (FatalInvariantViolation "Tried to get all graph types before it was frozen").
Proof. intros Hf. unfold allTypesUnordered. by rewrite Hf. Qed.

End FreezeFacts.

(** C8.  For a graph object and arguments whose node and top-level
    references all belong to it: [freeze] aborts with a fatal invariant
    violation exactly when the graph is already frozen (leaving it as it
    was) and succeeds exactly when it is open (leaving it frozen);
    [topLevels] and [allTypesUnordered] abort with a fatal invariant
    violation exactly when the graph is not frozen and succeed exactly
    when it is. *)
Theorem freeze_and_frozen_queries (g : TypeGraph.t) (topLevels : list (string * TypeRef))
    (types : list Type_) (typeAttributes : list (option (gmap string AttributeValue))) :
  consistent g →
  (∀ ty, ty ∈ types → refSerial (typeRef ty) = TypeGraph.serial g) →
  (∀ name tref, (name, tref) ∈ topLevels → refSerial tref = TypeGraph.serial g) →
  let outcome := TypeGraph.freeze g topLevels types typeAttributes in
  (isFatal outcome.1 ↔ TypeGraph.isFrozen g = true) ∧
  (isOk outcome.1 ↔ TypeGraph.isFrozen g = false) ∧
  (TypeGraph.isFrozen g = true → outcome.2 = g) ∧
  (TypeGraph.isFrozen g = false →
     TypeGraph.isFrozen outcome.2 = true ∧ TypeGraph._types outcome.2 = Some types) ∧
  (isFatal (TypeGraph.topLevels g) ↔ TypeGraph.isFrozen g = false) ∧
  (isOk (TypeGraph.topLevels g) ↔ TypeGraph.isFrozen g = true) ∧
  (isFatal (TypeGraph.allTypesUnordered g) ↔ TypeGraph.isFrozen g = false) ∧
  (isOk (TypeGraph.allTypesUnordered g) ↔ TypeGraph.isFrozen g = true).
Proof.
  intros Hc Htypes Htops outcome. subst outcome.
  destruct (TypeGraph.isFrozen g) eqn:Hf.
  - destruct (Hc Hf) as [[ts Hts] _].
    rewrite freeze_frozen, topLevels_frozen, (allTypesUnordered_frozen _ ts) by done.
    simpl. split_and!; (done || (split; done)).
  - rewrite freeze_open, topLevels_open, allTypesUnordered_open by done.
    simpl. split_and!; (done || (split; done)).
Qed.

Lemma freeze_and_frozen_queries_witness :
  isOk (TypeGraph.freeze Scenario.openGraph [("R", Scenario.ref 0 0)]
          [Scenario.nodeA; Scenario.nodeB; Scenario.nodeC] []).1 ∧
  isFatal (TypeGraph.topLevels Scenario.openGraph) ∧
  isFatal (TypeGraph.allTypesUnordered Scenario.openGraph).
Proof.
  pose proof (freeze_and_frozen_queries Scenario.openGraph [("R", Scenario.ref 0 0)]
                [Scenario.nodeA; Scenario.nodeB; Scenario.nodeC] []) as Hthm.
  simpl in Hthm.
  destruct Hthm as (_ & Hok & _ & _ & Htop & _ & Hall & _).
  - intros Hf. discriminate Hf.
  - intros ty Hty. repeat (apply elem_of_cons in Hty as [->|Hty]; [reflexivity|]).
    by apply elem_of_nil in Hty.
  - intros name tref Hin. apply elem_of_cons in Hin as [[= -> ->]|Hin]; [reflexivity|].
    by apply elem_of_nil in Hin.
  - split_and!; [by apply Hok | by apply Htop | by apply Hall].
Defined.

(** ** C10: all types, reachable or not *)

(** C10.  On a frozen graph, [allTypesUnordered] returns the node array
    as a set: every node of the array once, and nothing else.  The
    top-levels play no part in it, so a node that no root reaches is
    included as well. *)
Theorem allTypesUnordered_is_the_node_array (g : TypeGraph.t) (types : list Type_) :
  TypeGraph.isFrozen g = true →
  TypeGraph._types g = Some types →
  ∃ all,
    TypeGraph.allTypesUnordered g = Ok all ∧
    NoDup all ∧
    (∀ ty, ty ∈ all ↔ ty ∈ types) ∧
    (∀ ty, ty ∈ types → ¬ reachable g ty → ty ∈ all) ∧
    (∀ g', TypeGraph.isFrozen g' = true → TypeGraph._types g' = Some types →
           TypeGraph.allTypesUnordered g' = Ok all).
Proof.
  intros Hf Ht. exists (newSet types). split_and!.
  - by apply allTypesUnordered_frozen.
  - apply NoDup_newSet.
  - intros ty. apply elem_of_newSet.
  - intros ty Hty _. by apply elem_of_newSet.
  - intros g' Hf' Ht'. by apply allTypesUnordered_frozen.
Qed.

Lemma allTypesUnordered_is_the_node_array_witness :
  ∃ all,
    TypeGraph.allTypesUnordered Scenario.repointedGraph = Ok all ∧
    NoDup all ∧
    (∀ ty, ty ∈ all ↔ ty ∈ [Scenario.nodeA; Scenario.nodeB; Scenario.nodeC]) ∧
    (∀ ty, ty ∈ [Scenario.nodeA; Scenario.nodeB; Scenario.nodeC] →
           ¬ reachable Scenario.repointedGraph ty → ty ∈ all) ∧
    (∀ g', TypeGraph.isFrozen g' = true →
           TypeGraph._types g' = Some [Scenario.nodeA; Scenario.nodeB; Scenario.nodeC] →
           TypeGraph.allTypesUnordered g' = Ok all).
Proof.
  apply (allTypesUnordered_is_the_node_array Scenario.repointedGraph
           [Scenario.nodeA; Scenario.nodeB; Scenario.nodeC]); reflexivity.
Defined.

(** ** C2 and C9: the lost-attribute check *)

Section ProvenanceFacts.
Import TypeGraph.

Lemma NoDup_subset_length {A} (l k : list A) :
  NoDup l → (∀ x, x ∈ l → x ∈ k) → length l ≤ length k.
Proof. intros Hl Hsub. by apply submseteq_length, NoDup_submseteq. Qed.

Lemma NoDup_strict_subset_length {A} (l k : list A) (y : A) :
  NoDup l → (∀ x, x ∈ l → x ∈ k) → y ∈ k → y ∉ l → length l < length k.
Proof.
  intros Hl Hsub Hy Hny.
  assert (length (y :: l) ≤ length k) as Hlen; [|simpl in Hlen; lia].
  apply submseteq_length, NoDup_submseteq; [by apply NoDup_cons|].
  intros x [->|Hx]%elem_of_cons; auto.
Qed.

Lemma NoDup_same_elements_length {A} (l k : list A) :
  NoDup l → NoDup k → (∀ x, x ∈ l ↔ x ∈ k) → length l = length k.
Proof.
  intros Hl Hk Hsame.
  apply Nat.le_antisymm; (apply NoDup_subset_length; [done|]); intros x Hx; by apply Hsame.
Qed.

(** The result of [allProvenance] is the union of the per-node
    provenance sets, each marker once. *)
Lemma allProvenance_spec g ps :
  allProvenance g = Ok ps →
  NoDup ps ∧ ∀ m, m ∈ ps ↔ inProvenanceUnion g m.
Proof.
  unfold allProvenance, attributeStore, allTypesUnordered.
  destruct (_haveProvenanceAttributes g); [|done]. simpl.
  destruct (_attributeStore g) as [store|] eqn:Hstore; [|done]. simpl.
  destruct (isFrozen g); [|done]. simpl.
  destruct (_types g) as [types|] eqn:Htypes; [|done]. simpl.
  destruct (mapArray _ _) as [sets|e] eqn:Hsets; [|done]. simpl.
  intros [= <-]. split; [apply NoDup_setUnionManyInto, NoDup_nil_2|].
  intros m. rewrite elem_of_setUnionManyInto.
  apply mapArray_inv in Hsets.
  unfold inProvenanceUnion, hasMarker, nodes. rewrite Htypes, Hstore. simpl.
  unfold TypeAttributeStoreView.tryGet in Hsets. simpl in Hsets.
  split.
  - intros [Hnil|(src & Hsrc & Hm)]; [by apply elem_of_nil in Hnil|].
    apply list_elem_of_lookup in Hsrc as [i Hi].
    destruct (Forall2_lookup_r _ _ _ _ _ Hsets Hi) as (ty & Hty & Hf).
    exists ty. split; [eapply elem_of_newSet, list_elem_of_lookup_2, Hty|].
    destruct (TypeAttributeStore.tryGet store provenanceTypeAttributeKind ty)
      as [[[markers|payload]|]|e] eqn:Hget; simpl in Hf; simplify_eq.
    + by exists store, src.
    + by apply elem_of_nil in Hm.
  - intros (ty & Hty & store' & markers & [= <-] & Hget & Hm). right.
    apply elem_of_newSet, list_elem_of_lookup in Hty as [i Hi].
    destruct (Forall2_lookup_l _ _ _ _ _ Hsets Hi) as (src & Hsrc & Hf).
    rewrite Hget in Hf. simpl in Hf. injection Hf as <-.
    exists markers. split; [eapply list_elem_of_lookup_2, Hsrc | done].
Qed.

(** The check, once both provenance sets are computed. *)
Lemma checkLostTypeAttributes_unfold this newGraph old new :
  _haveProvenanceAttributes this = true →
  allProvenance this = Ok old →
  allProvenance newGraph = Ok new →
  checkLostTypeAttributes this false newGraph =
    if decide (length old = length new) then Ok tt
    else Err (IRTypeAttributesNotPropagated (length (setSubtract old new))
                                            (setSubtract old new)).
Proof.
  intros Hp Hold Hnew. unfold checkLostTypeAttributes.
  rewrite Hp, Hold, Hnew. simpl.
  case_bool_decide; case_decide; done.
Qed.

(** Nothing is checked without provenance tracking, or when the builder
    declares that it drops attributes. *)
Lemma checkLostTypeAttributes_inactive this lost newGraph :
  _haveProvenanceAttributes this = false ∨ lost = true →
  checkLostTypeAttributes this lost newGraph = Ok tt.
Proof.
  intros [Hp| ->]; unfold checkLostTypeAttributes; [by rewrite Hp|].
  by rewrite orb_true_r.
Qed.

End ProvenanceFacts.

(** C9.  With provenance tracking on and a builder that does not declare
    lost attributes, the check raises the attributes-not-propagated
    error exactly when the two provenance unions differ in cardinality.
    So it stays silent whenever the cardinalities agree, even if the
    sets differ, and when the new union is a proper superset of the old
    one it raises the error with count 0 and no marker. *)
Theorem lost_attribute_check_compares_cardinalities (this newGraph : TypeGraph.t)
    (old new : list Z) :
  TypeGraph._haveProvenanceAttributes this = true →
  TypeGraph.allProvenance this = Ok old →
  TypeGraph.allProvenance newGraph = Ok new →
  let check := TypeGraph.checkLostTypeAttributes this false newGraph in
  (NoDup old ∧ ∀ m, m ∈ old ↔ inProvenanceUnion this m) ∧
  (NoDup new ∧ ∀ m, m ∈ new ↔ inProvenanceUnion newGraph m) ∧
  ((∃ count indexes, check = Err (IRTypeAttributesNotPropagated count indexes)) ↔
     length old ≠ length new) ∧
  (check = Ok tt ↔ length old = length new) ∧
  (length old ≠ length new →
   ∃ missing,
     check = Err (IRTypeAttributesNotPropagated (length missing) missing) ∧
     ∀ m, m ∈ missing ↔ inProvenanceUnion this m ∧ ¬ inProvenanceUnion newGraph m) ∧
  ((∀ m, inProvenanceUnion this m → inProvenanceUnion newGraph m) →
   (∃ m, inProvenanceUnion newGraph m ∧ ¬ inProvenanceUnion this m) →
   check = Err (IRTypeAttributesNotPropagated 0 [])).
Proof.
  intros Hp Hold Hnew check. subst check.
  rewrite (checkLostTypeAttributes_unfold _ _ _ _ Hp Hold Hnew).
  destruct (allProvenance_spec _ _ Hold) as [Hndo Ho].
  destruct (allProvenance_spec _ _ Hnew) as [Hndn Hn].
  split_and!; [done | done | done | done | | | |].
  - case_decide; split; try done.
    + intros (count & indexes & ?). done.
    + eauto.
  - case_decide; split; done.
  - intros Hne. rewrite decide_False by done. eexists. split; [done|].
    intros m. by rewrite elem_of_setSubtract, Ho, Hn.
  - intros Hsub (m & Hm & Hnm).
    assert (length old < length new) as Hlt.
    { apply (NoDup_strict_subset_length _ _ m); [done | | by apply Hn | by rewrite Ho].
      intros x Hx. by apply Hn, Hsub, Ho. }
    rewrite decide_False by lia.
    assert (setSubtract old new = []) as ->; [|done].
    apply setSubtract_nil_iff. intros y Hy. by apply Hn, Hsub, Ho.
Qed.

Lemma lost_attribute_check_compares_cardinalities_witness :
  TypeGraph.checkLostTypeAttributes (Scenario.markedGraph 0 [1%Z]) false
    (Scenario.markedGraph 1 [1%Z; 2%Z]) = Err (IRTypeAttributesNotPropagated 0 []).
Proof.
  pose proof (lost_attribute_check_compares_cardinalities
                (Scenario.markedGraph 0 [1%Z]) (Scenario.markedGraph 1 [1%Z; 2%Z])
                [1%Z] [1%Z; 2%Z] eq_refl eq_refl eq_refl) as Hthm.
  simpl in Hthm. destruct Hthm as ((_ & Ho) & (_ & Hn) & _ & _ & _ & Hsuper).
  apply Hsuper.
  - intros m Hm. apply Hn. apply Ho in Hm.
    apply elem_of_cons in Hm as [->|Hm]; [left | by apply elem_of_nil in Hm].
  - exists 2%Z. split; [apply Hn; right; left|].
    intros Hm. apply Ho in Hm. apply elem_of_cons in Hm as [Hm|Hm]; [done|].
    by apply elem_of_nil in Hm.
Defined.

(** C2, as amended.  With provenance tracking on and a builder that does
    not declare lost attributes, and provided that every origin marker
    of the new graph already occurs in the old graph: if some marker of
    the old union is absent from the new union, the check raises the
    attributes-not-propagated error with the number and exactly the list
    of the missing markers; and if every old marker is in the new union,
    it raises nothing. *)
Theorem lost_attribute_check_reports_missing_markers (this newGraph : TypeGraph.t)
    (old new : list Z) :
  TypeGraph._haveProvenanceAttributes this = true →
  TypeGraph.allProvenance this = Ok old →
  TypeGraph.allProvenance newGraph = Ok new →
  (∀ m, inProvenanceUnion newGraph m → inProvenanceUnion this m) →
  let check := TypeGraph.checkLostTypeAttributes this false newGraph in
  ((∃ m, inProvenanceUnion this m ∧ ¬ inProvenanceUnion newGraph m) →
   ∃ missing,
     check = Err (IRTypeAttributesNotPropagated (length missing) missing) ∧
     NoDup missing ∧
     ∀ m, m ∈ missing ↔ inProvenanceUnion this m ∧ ¬ inProvenanceUnion newGraph m) ∧
  ((∀ m, inProvenanceUnion this m → inProvenanceUnion newGraph m) → check = Ok tt).
Proof.
  intros Hp Hold Hnew Hsub check. subst check.
  rewrite (checkLostTypeAttributes_unfold _ _ _ _ Hp Hold Hnew).
  destruct (allProvenance_spec _ _ Hold) as [Hndo Ho].
  destruct (allProvenance_spec _ _ Hnew) as [Hndn Hn].
  split.
  - intros (m & Hm & Hnm).
    assert (length new < length old) as Hlt.
    { apply (NoDup_strict_subset_length _ _ m); [done | | by apply Ho | by rewrite Hn].
      intros x Hx. by apply Ho, Hsub, Hn. }
    rewrite decide_False by lia.
    exists (setSubtract old new). split_and!; [done | apply NoDup_setSubtract |].
    intros x. by rewrite elem_of_setSubtract, Ho, Hn.
  - intros Hall. rewrite decide_True; [done|].
    apply NoDup_same_elements_length; [done | done |].
    intros x. rewrite Ho, Hn. split; auto.
Qed.

Lemma lost_attribute_check_reports_missing_markers_witness :
  ∃ missing,
    TypeGraph.checkLostTypeAttributes (Scenario.markedGraph 0 [1%Z; 2%Z]) false
      (Scenario.markedGraph 1 [2%Z]) =
      Err (IRTypeAttributesNotPropagated (length missing) missing) ∧
    NoDup missing ∧
    ∀ m, m ∈ missing ↔
      inProvenanceUnion (Scenario.markedGraph 0 [1%Z; 2%Z]) m ∧
      ¬ inProvenanceUnion (Scenario.markedGraph 1 [2%Z]) m.
Proof.
  pose proof (allProvenance_spec (Scenario.markedGraph 0 [1%Z; 2%Z]) [1%Z; 2%Z] eq_refl)
    as [_ Ho].
  pose proof (allProvenance_spec (Scenario.markedGraph 1 [2%Z]) [2%Z] eq_refl) as [_ Hn].
  apply (lost_attribute_check_reports_missing_markers
           (Scenario.markedGraph 0 [1%Z; 2%Z]) (Scenario.markedGraph 1 [2%Z])
           [1%Z; 2%Z] [2%Z] eq_refl eq_refl eq_refl).
  - intros m Hm. apply Ho. apply Hn in Hm. by right.
  - exists 1%Z. split; [apply Ho; left|].
    intros Hm. apply Hn in Hm. apply elem_of_cons in Hm as [Hm|Hm]; [done|].
    by apply elem_of_nil in Hm.
Defined.

(** C2, as stated, fails: the old graph carries marker 1 and the new
    graph carries marker 2 instead, so marker 1 was lost, and the check
    raises nothing, because both unions have one element. *)
Lemma lost_marker_goes_unreported :
  TypeGraph._haveProvenanceAttributes (Scenario.markedGraph 0 [1%Z]) = true ∧
  inProvenanceUnion (Scenario.markedGraph 0 [1%Z]) 1 ∧
  ¬ inProvenanceUnion (Scenario.markedGraph 1 [2%Z]) 1 ∧
  TypeGraph.checkLostTypeAttributes (Scenario.markedGraph 0 [1%Z]) false
    (Scenario.markedGraph 1 [2%Z]) = Ok tt.
Proof.
  pose proof (allProvenance_spec (Scenario.markedGraph 0 [1%Z]) [1%Z] eq_refl) as [_ Ho].
  pose proof (allProvenance_spec (Scenario.markedGraph 1 [2%Z]) [2%Z] eq_refl) as [_ Hn].
  split_and!; [reflexivity | apply Ho; left | | reflexivity].
  intros Hm. apply Hn in Hm. apply elem_of_cons in Hm as [Hm|Hm]; [done|].
  by apply elem_of_nil in Hm.
Qed.

(** ** C4: the traversal of [filterTypes] *)

Section TraversalFacts.
Import TypeGraph.
Variable g : TypeGraph.t.
Variable predicate : option (Type_ → bool).

Lemma forEach_fmap {A B S} (h : A → B) (f : B → S → result S) (xs : list A) (s : S) :
  forEach (fun x => f (h x)) xs s = forEach f (h <$> xs) s.
Proof.
  revert s. induction xs as [|x xs IH]; intros s; [done|]. simpl.
  destruct (f (h x) s); [apply IH | done].
Qed.

Lemma expandedIn_mono s s' ty : s ⊆ s' → expandedIn g s ty → expandedIn g s' ty.
Proof.
  intros Hsub (children & Hc & Hall). exists children. split; [done|].
  intros c Hin. destruct (Hall c Hin) as (z & -> & Hz). exists z. split; [done|]. by apply Hsub.
Qed.

Lemma visitAll_nil v : visitAll g predicate [] v v.
Proof.
  split_and!; [done | | | done].
  - intros c Hc. by apply elem_of_nil in Hc.
  - intros y Hy Hny. done.
Qed.

Lemma visitAll_cons ty cs v v1 v' :
  visitStep g predicate ty v v1 →
  visitAll g predicate cs v1 v' →
  visitAll g predicate (Some ty :: cs) v v'.
Proof.
  intros (Hty & Hsub1 & Hnew1 & Hfound1) (Hsub2 & Hcs & Hnew2 & Hfound2).
  split_and!.
  - by transitivity (seen v1).
  - intros c [->|Hc]%elem_of_cons; [|by apply Hcs].
    exists ty. split; [done | by apply Hsub2].
  - intros y Hy Hny. destruct (decide (y ∈ seen v1)) as [Hy1|Hy1].
    + destruct (Hnew1 y Hy1 Hny) as [Hexp Hreach]. split.
      * by apply (expandedIn_mono (seen v1)).
      * exists ty. split; [left | done].
    + destruct (Hnew2 y Hy Hy1) as [Hexp (z & Hz & Hreach)]. split; [done|].
      exists z. split; [by right | done].
  - auto.
Qed.

(** The loop over the children, given what one call does. *)
Lemma forEach_visitAll (f : option Type_ → Visit → result Visit) cs :
  (∀ c v v', f c v = Ok v' → ∃ ty, c = Some ty ∧ visitStep g predicate ty v v') →
  ∀ v v', forEach f cs v = Ok v' → visitAll g predicate cs v v'.
Proof.
  intros Hstep. induction cs as [|c cs IH]; intros v v' Hrun; simpl in Hrun.
  - injection Hrun as <-. apply visitAll_nil.
  - destruct (f c v) as [v1|e] eqn:Hc; [|done]. simpl in Hrun.
    destruct (Hstep _ _ _ Hc) as (ty & -> & Hs).
    eapply visitAll_cons; [done | by apply IH].
Qed.

Lemma foundInvariant_mark v ty :
  ty ∉ seen v →
  foundInvariant predicate v →
  foundInvariant predicate
    {| seen := setAdd (seen v) ty;
       found := if requiredBy predicate ty then found v ++ [ty] else found v |}.
Proof.
  intros Hny [Hnd Hiff]. unfold foundInvariant. simpl.
  destruct (requiredBy predicate ty) eqn:Hreq.
  - split.
    + apply NoDup_app. split_and!; [done | | apply NoDup_singleton].
      intros x Hx ->%list_elem_of_singleton. apply Hiff in Hx as [Hx _]. done.
    + intros x. rewrite elem_of_app, list_elem_of_singleton, elem_of_setAdd, Hiff.
      split; [intros [[? ?]| ->]; auto | intros [[?| ->] ?]; auto].
  - split; [done|]. intros x. rewrite elem_of_setAdd, Hiff.
    split; [intros [? ?]; auto | intros [[?| ->] ?]; [auto | congruence]].
Qed.

(** One call of [addFromType], when it returns. *)
Lemma addFromType_visitStep depth :
  ∀ maybeType v v',
    addFromType g predicate depth maybeType v = Ok v' →
    ∃ ty, maybeType = Some ty ∧ visitStep g predicate ty v v'.
Proof.
  induction depth as [|depth IH]; intros maybeType v v' Hrun; simpl in Hrun; [done|].
  destruct maybeType as [ty|]; [|done]. exists ty. split; [done|].
  destruct (decide (ty ∈ seen v)) as [Hseen|Hnew].
  - injection Hrun as <-. split_and!; [done | done | | done].
    intros y Hy Hny. done.
  - destruct (getChildren g ty) as [children|e] eqn:Hchildren; [|done]. simpl in Hrun.
    apply (forEach_visitAll _ _ IH) in Hrun as (Hsub & Hcs & Hnew' & Hfound).
    simpl in *.
    assert (seen v ⊆ setAdd (seen v) ty) as Hsub0.
    { intros x Hx. apply elem_of_setAdd. by left. }
    assert (ty ∈ seen v') as Hty.
    { apply Hsub, elem_of_setAdd. by right. }
    split_and!; [done | by transitivity (setAdd (seen v) ty) | |].
    + intros y Hy Hny. destruct (decide (y = ty)) as [->|Hne].
      * split; [by exists children | done].
      * destruct (Hnew' y Hy) as [Hexp (z & Hz & Hreach)].
        { rewrite elem_of_setAdd. intros [?|?]; done. }
        split; [done|]. eapply rtc_l; [|done]. by exists children.
    + intros Hinv. apply Hfound. by apply foundInvariant_mark.
Qed.

(** What [filterTypes] returns, when it returns: the kept nodes that the
    roots reach, once each. *)
Lemma filterTypes_spec result :
  filterTypes g predicate = Ok result →
  NoDup result ∧
  ∀ ty, ty ∈ result ↔ reachable g ty ∧ requiredBy predicate ty = true.
Proof.
  unfold filterTypes, topLevels. destruct (isFrozen g); [|done]. simpl.
  rewrite (forEach_fmap snd (addFromType g predicate (traversalBound g))).
  destruct (forEach _ _ _) as [v|e] eqn:Hrun; [|done]. simpl. intros [= <-].
  apply (forEach_visitAll _ _ (addFromType_visitStep _)) in Hrun
    as (_ & Hroots & Hnew & Hfound). simpl in *.
  destruct Hfound as [Hnd Hiff].
  { split; [apply NoDup_nil_2|]. intros ty. split; [by intros ?%elem_of_nil|].
    by intros [?%elem_of_nil _]. }
  rewrite newSet_NoDup by done. split; [done|].
  intros ty. rewrite Hiff.
  assert (ty ∈ seen v ↔ reachable g ty) as ->; [|done].
  split.
  - intros Hty. destruct (Hnew ty Hty) as [_ (z & Hz & Hreach)]; [apply not_elem_of_nil|].
    apply list_elem_of_fmap in Hz as ([name root] & Heq & Hin). simpl in Heq. subst root.
    by exists name, z.
  - intros (name & root & Hin & Hreach).
    assert (root ∈ seen v) as Hroot.
    { destruct (Hroots (Some root)) as (z & [= <-] & Hz); [|done].
      apply list_elem_of_fmap. by exists (name, Some root). }
    clear Hin. induction Hreach as [|p c z (children & Hc & Hin) _ IH]; [done|].
    apply IH. destruct (Hnew p Hroot) as [(children' & Hc' & Hall) _];
      [apply not_elem_of_nil|].
    assert (children' = children) as -> by congruence.
    by destruct (Hall _ Hin) as (z' & [= <-] & Hz').
Qed.

End TraversalFacts.

Section TerminationFacts.
Import TypeGraph.
Variable g : TypeGraph.t.
Variable predicate : option (Type_ → bool).

Lemma length_newSet_le {A} `{EqDecision A} (xs : list A) : length (newSet xs) ≤ length xs.
Proof.
  apply NoDup_subset_length; [apply NoDup_newSet|]. intros x. by rewrite elem_of_newSet.
Qed.

Lemma unseen_le s : unseen g s ≤ length (nodes g).
Proof.
  unfold unseen. etransitivity; [|apply length_newSet_le].
  apply NoDup_subset_length; [apply NoDup_list_difference, NoDup_newSet|].
  intros x. rewrite list_elem_of_difference. tauto.
Qed.

Lemma unseen_mono s s' : s ⊆ s' → unseen g s' ≤ unseen g s.
Proof.
  intros Hsub. unfold unseen.
  apply NoDup_subset_length; [apply NoDup_list_difference, NoDup_newSet|].
  intros x. rewrite !list_elem_of_difference. intros [Hx Hn]. split; [done|].
  intros Hs. by apply Hn, Hsub.
Qed.

Lemma unseen_mark s ty :
  ty ∈ nodes g → ty ∉ s → unseen g (setAdd s ty) < unseen g s.
Proof.
  intros Hnode Hnew. unfold unseen.
  apply (NoDup_strict_subset_length _ _ ty).
  - apply NoDup_list_difference, NoDup_newSet.
  - intros x. rewrite !list_elem_of_difference, elem_of_setAdd. intros [Hx Hn].
    split; [done|]. intros Hs. apply Hn. by left.
  - rewrite list_elem_of_difference, elem_of_newSet. done.
  - rewrite list_elem_of_difference, elem_of_setAdd. intros [_ Hn]. apply Hn. by right.
Qed.

Lemma typeAtIndex_frozen index :
  isFrozen g = true → typeAtIndex g index = (types ← defined (_types g); Ok (types !! index)).
Proof. unfold isFrozen, typeAtIndex. by destruct (_typeBuilder g). Qed.

(** On a frozen graph, a reference resolves into the node array or
    throws a fatal error. *)
Lemma derefTypeRef_frozen tref :
  isFrozen g = true →
  match derefTypeRef tref g with
  | Ok (Some ty) => ty ∈ nodes g
  | Ok None => True
  | Err e => e ≠ Diverged
  end.
Proof.
  intros Hf. unfold derefTypeRef, assertTypeRefGraph, assert.
  case_bool_decide; simpl; [|done].
  rewrite typeAtIndex_frozen by done. unfold nodes.
  destruct (_types g) as [types|]; simpl; [|done].
  destruct (types !! typeRefIndex tref) as [ty|] eqn:Hty; [|done].
  by eapply list_elem_of_lookup_2.
Qed.

Lemma mapArray_derefTypeRef_frozen trefs :
  isFrozen g = true →
  match mapArray (fun tref => derefTypeRef tref g) trefs with
  | Ok children => ∀ c, Some c ∈ children → c ∈ nodes g
  | Err e => e ≠ Diverged
  end.
Proof.
  intros Hf. induction trefs as [|tref trefs IH]; simpl.
  - intros c Hc. by apply elem_of_nil in Hc.
  - pose proof (derefTypeRef_frozen tref Hf) as Hd.
    destruct (derefTypeRef tref g) as [child|e]; simpl; [|done].
    destruct (mapArray _ trefs) as [children|e]; simpl; [|done].
    intros c [[= <-]|Hc]%elem_of_cons; [done | by apply IH].
Qed.

Lemma getChildren_frozen ty :
  isFrozen g = true →
  match getChildren g ty with
  | Ok children => ∀ c, Some c ∈ children → c ∈ nodes g
  | Err e => e ≠ Diverged
  end.
Proof.
  intros Hf. unfold getChildren.
  pose proof (mapArray_derefTypeRef_frozen (childRefs ty) Hf) as Hm.
  destruct (mapArray _ _) as [children|e]; simpl; [|done].
  intros c Hc. apply Hm. by rewrite elem_of_newSet in Hc.
Qed.

(** A loop of calls does not run out of depth if none of its calls does. *)
Lemma forEach_returnsOrThrows (f : option Type_ → Visit → result Visit) (bound : nat) cs :
  (∀ c v, c ∈ cs → unseen g (seen v) < bound → returnsOrThrows v (f c v)) →
  ∀ v, unseen g (seen v) < bound → returnsOrThrows v (forEach f cs v).
Proof.
  induction cs as [|c cs IH]; intros Hstep v Hv; simpl; [done|].
  pose proof (Hstep c v ltac:(left) Hv) as Hc.
  destruct (f c v) as [v1|e]; simpl in *; [|done].
  assert (unseen g (seen v1) < bound) as Hv1.
  { eapply Nat.le_lt_trans; [by apply unseen_mono | done]. }
  pose proof (IH (fun c' v' Hc' => Hstep c' v' ltac:(by right)) v1 Hv1) as Hrest.
  destruct (forEach f cs v1) as [v'|e]; simpl in *; [|done].
  by transitivity (seen v1).
Qed.

(** The body of [addFromType] on a node that is not marked yet, given
    that the calls one level deeper behave. *)
Lemma addFromType_step depth ty v :
  isFrozen g = true →
  (∀ c v', (∀ z, c = Some z → z ∈ nodes g) → unseen g (seen v') < depth →
           returnsOrThrows v' (addFromType g predicate depth c v')) →
  (ty ∈ seen v ∨ unseen g (setAdd (seen v) ty) < depth) →
  returnsOrThrows v (addFromType g predicate (S depth) (Some ty) v).
Proof.
  intros Hf IH Hbound. simpl.
  destruct (decide (ty ∈ seen v)) as [Hseen|Hnew]; [by unfold returnsOrThrows|].
  destruct Hbound as [Hseen|Hbound]; [by destruct Hnew|].
  pose proof (getChildren_frozen ty Hf) as Hchildren.
  destruct (getChildren g ty) as [children|e]; simpl; [|done].
  pose proof (forEach_returnsOrThrows (addFromType g predicate depth) depth children)
    as Hloop.
  specialize (Hloop (fun c v' Hc Hv' => IH c v' (fun z Hz => Hchildren z ltac:(by subst c)) Hv')).
  specialize (Hloop {| seen := setAdd (seen v) ty;
                       found := if match predicate with
                                   | Some p => p ty
                                   | None => true
                                   end then found v ++ [ty] else found v |} Hbound).
  destruct (forEach _ _ _) as [v'|e]; simpl in *; [|done].
  transitivity (setAdd (seen v) ty); [|done].
  intros x Hx. apply elem_of_setAdd. by left.
Qed.

(** A call on a node of the node array needs no more depth than there
    are unmarked nodes. *)
Lemma addFromType_node_returnsOrThrows depth :
  isFrozen g = true →
  ∀ maybeType v,
    (∀ ty, maybeType = Some ty → ty ∈ nodes g) →
    unseen g (seen v) < depth →
    returnsOrThrows v (addFromType g predicate depth maybeType v).
Proof.
  intros Hf. induction depth as [|depth IH]; intros maybeType v Hnode Hv; [lia|].
  destruct maybeType as [ty|]; [|done].
  apply addFromType_step; [done | done |].
  destruct (decide (ty ∈ seen v)) as [?|Hnew]; [by left | right].
  pose proof (unseen_mark (seen v) ty (Hnode ty eq_refl) Hnew). lia.
Qed.

(** A call on a root, which need not be in the node array, needs one
    level more. *)
Lemma addFromType_root_returnsOrThrows maybeType v :
  isFrozen g = true →
  returnsOrThrows v (addFromType g predicate (traversalBound g) maybeType v).
Proof.
  intros Hf.
  assert (traversalBound g = S (S (length (nodes g)))) as ->.
  { unfold traversalBound, nodes. destruct (_types g); simpl; lia. }
  destruct maybeType as [ty|]; [|done].
  apply addFromType_step; [done | |].
  - intros c v' Hc Hv'. by apply addFromType_node_returnsOrThrows.
  - right. pose proof (unseen_le (setAdd (seen v) ty)). lia.
Qed.

(** [filterTypes] never uses up its bound: the traversal of the source
    terminates on every graph, cyclic or not. *)
Lemma filterTypes_terminates : filterTypes g predicate ≠ Err Diverged.
Proof.
  unfold filterTypes, topLevels. destruct (isFrozen g) eqn:Hf; [|done]. simpl.
  assert (∀ roots v,
    returnsOrThrows v
      (forEach (fun root : string * option Type_ =>
                  addFromType g predicate (traversalBound g) root.2) roots v)) as Hloop.
  { induction roots as [|root roots IH]; intros v; simpl; [done|].
    pose proof (addFromType_root_returnsOrThrows root.2 v Hf) as Hroot.
    destruct (addFromType _ _ _ _ _) as [v1|e]; simpl in *; [|done].
    specialize (IH v1). destruct (forEach _ roots v1) as [v'|e]; simpl in *; [|done].
    by transitivity (seen v1). }
  specialize (Hloop (_topLevels g) {| seen := []; found := [] |}).
  destruct (forEach _ _ _) as [v'|e]; simpl in *; [done|]. congruence.
Qed.

(** On a graph whose references all resolve, the children of a node
    with valid references are nodes of the node array. *)
Lemma getChildren_resolved ty :
  resolved g → validChildRefs g ty →
  ∃ children, getChildren g ty = Ok children ∧
    ∀ c, c ∈ children → ∃ z, c = Some z ∧ validChildRefs g z.
Proof.
  intros (Hf & [types Htypes] & Hnodes & _) Hvalid. unfold getChildren.
  rewrite (mapArray_ok _ (fun tref => types !! refIndex tref)).
  - simpl. eexists. split; [done|]. intros c Hc.
    apply elem_of_newSet, list_elem_of_fmap in Hc as (tref & -> & Hin).
    destruct (Hvalid tref Hin) as [_ Hlt]. unfold nodes in Hlt, Hnodes.
    rewrite Htypes in Hlt, Hnodes. simpl in *.
    destruct (lookup_lt_is_Some_2 types (refIndex tref) Hlt) as [z Hz].
    exists z. split; [done|]. eapply Hnodes, list_elem_of_lookup_2, Hz.
  - intros tref Hin. destruct (Hvalid tref Hin) as [Hs _].
    unfold derefTypeRef. rewrite assertTypeRefGraph_ok by done. simpl.
    rewrite typeAtIndex_frozen by done. by rewrite Htypes.
Qed.

(** On such a graph the traversal throws nothing. *)
Lemma addFromType_resolved depth :
  resolved g →
  ∀ maybeType v e,
    (∃ ty, maybeType = Some ty ∧ validChildRefs g ty) →
    addFromType g predicate depth maybeType v = Err e → e = Diverged.
Proof.
  intros Hres. induction depth as [|depth IH]; intros maybeType v e (ty & -> & Hvalid) Hrun;
    simpl in Hrun; [congruence|].
  destruct (decide (ty ∈ seen v)); [done|].
  destruct (getChildren_resolved ty Hres Hvalid) as (children & Hchildren & Hall).
  rewrite Hchildren in Hrun. simpl in Hrun.
  assert (∀ cs v1,
    (∀ c, c ∈ cs → ∃ z, c = Some z ∧ validChildRefs g z) →
    forEach (addFromType g predicate depth) cs v1 = Err e → e = Diverged) as Hloop.
  { clear -IH. induction cs as [|c cs IHc]; intros v1 Hcs Hloop; simpl in Hloop; [done|].
    destruct (addFromType g predicate depth c v1) as [v2|e'] eqn:Hc; simpl in Hloop.
    - eapply IHc; [|done]. intros c' Hc'. apply Hcs. by right.
    - injection Hloop as <-. eapply IH; [|done]. apply Hcs. by left. }
  by eapply Hloop.
Qed.

Lemma filterTypes_resolved : resolved g → isOk (filterTypes g predicate).
Proof.
  intros Hres. pose proof filterTypes_terminates as Hterm.
  destruct (filterTypes g predicate) as [r|e] eqn:Hrun; [done|]. exfalso.
  apply Hterm. f_equal. revert Hrun.
  unfold filterTypes, topLevels. pose proof Hres as (Hf & _ & _ & Hroots).
  rewrite Hf. simpl.
  assert (∀ (roots : list (string * option Type_)) v,
    (∀ name root, (name, root) ∈ roots → ∃ ty, root = Some ty ∧ validChildRefs g ty) →
    forEach (fun root => addFromType g predicate (traversalBound g) root.2) roots v = Err e →
    e = Diverged) as Hloop.
  { induction roots as [|[name root] roots IH]; intros v Hin Hrun; simpl in Hrun; [done|].
    destruct (addFromType g predicate (traversalBound g) root v) as [v1|e'] eqn:Hroot;
      simpl in Hrun.
    - eapply IH; [|done]. intros name' root' Hin'. eapply Hin. by right.
    - injection Hrun as <-. eapply (addFromType_resolved _ Hres); [|done].
      eapply Hin. left. }
  destruct (forEach _ _ _) as [v|e'] eqn:Hrun; simpl; [done|].
  intros [= <-]. by eapply Hloop.
Qed.

End TerminationFacts.

(** A concrete graph is [resolved]: every obligation is decided by
    evaluation. *)
Ltac list_cases H :=
  repeat (apply elem_of_cons in H as [H|H]; [subst|]); [..|by apply elem_of_nil in H].

Ltac solve_validChildRefs :=
  let tref := fresh "tref" in
  let Hin := fresh "Hin" in
  intros tref Hin; vm_compute in Hin; list_cases Hin;
  (split; [reflexivity | vm_compute; lia]).

Ltac solve_resolved :=
  split_and!;
  [ reflexivity
  | eexists; reflexivity
  | let ty := fresh "ty" in
    let Hty := fresh "Hty" in
    intros ty Hty; vm_compute in Hty; list_cases Hty; solve_validChildRefs
  | let name := fresh "name" in
    let root := fresh "root" in
    let Hin := fresh "Hin" in
    intros name root Hin; vm_compute in Hin; list_cases Hin;
    match goal with
    | H : (_, _) = (_, _) |- _ => injection H as -> ->
    end;
    eexists; (split; [reflexivity | solve_validChildRefs]) ].

Lemma cyclicGraph_resolved : resolved Scenario.cyclicGraph.
Proof. solve_resolved. Qed.

(** C4.  [allNamedTypes] never exhausts the traversal bound, on any
    graph.  Whenever it returns, the result holds every named node that
    a top-level root reaches through children, and only those, each
    once.  On a frozen graph whose references all resolve, cyclic or
    not, it does return. *)
Theorem allNamedTypes_terminates_and_deduplicates {Co : Collaborators} (g : TypeGraph.t) :
  allNamedTypes g ≠ Err Diverged ∧
  (∀ named, allNamedTypes g = Ok named →
     NoDup named ∧ ∀ ty, ty ∈ named ↔ reachable g ty ∧ isNamedType ty = true) ∧
  (resolved g →
     ∃ named, allNamedTypes g = Ok named ∧ NoDup named ∧
       ∀ ty, ty ∈ named ↔ reachable g ty ∧ isNamedType ty = true).
Proof.
  unfold allNamedTypes. split_and!.
  - apply filterTypes_terminates.
  - intros named Hrun. by apply filterTypes_spec in Hrun.
  - intros Hres. pose proof (filterTypes_resolved g (Some isNamedType) Hres) as Hok.
    destruct (TypeGraph.filterTypes g (Some isNamedType)) as [named|e] eqn:Hrun; [|done].
    exists named. split; [done|]. by apply filterTypes_spec in Hrun.
Qed.

Lemma allNamedTypes_terminates_and_deduplicates_witness :
  ∃ named,
    allNamedTypes (Co := Scenario.collaborators) Scenario.cyclicGraph = Ok named ∧
    NoDup named ∧
    ∀ ty, ty ∈ named ↔
      reachable Scenario.cyclicGraph ty ∧
      isNamedType (Collaborators := Scenario.collaborators) ty = true.
Proof.
  apply (allNamedTypes_terminates_and_deduplicates (Co := Scenario.collaborators)
           Scenario.cyclicGraph).
  apply cyclicGraph_resolved.
Defined.

(** On the cyclic graph the traversal returns X and Y, in visiting
    order; on the chain of the specification with every node named by
    the absent predicate it returns A, B and C. *)
Example allNamedTypes_cyclicGraph :
  allNamedTypes (Co := Scenario.collaborators) Scenario.cyclicGraph
    = Ok [Scenario.nodeX; Scenario.nodeY].
Proof. vm_compute. reflexivity. Qed.

Example filterTypes_chainGraph :
  TypeGraph.filterTypes Scenario.chainGraph None
    = Ok [Scenario.nodeA; Scenario.nodeB; Scenario.nodeC].
Proof. vm_compute. reflexivity. Qed.

(** ** The store monad *)

Section StoreMonadFacts.

Lemma bind_run {A B} (m : M A) (f : A → M B) w :
  (m ≫= f) w =
    match m w with
    | (Ok a, w') => f a w'
    | (Err e, w') => (Err e, w')
    end.
Proof. reflexivity. Qed.

Lemma keeps_ret {A} (I : World → Prop) (post : A → Prop) (a : A) :
  post a → keeps I post (mret a).
Proof. intros Ha w Hw. split; [done|]. by intros a' [= <-]. Qed.

Lemma keeps_bind {A B} (I : World → Prop) (mid : A → Prop) (post : B → Prop)
    (m : M A) (f : A → M B) :
  keeps I mid m → (∀ a, mid a → keeps I post (f a)) → keeps I post (m ≫= f).
Proof.
  intros Hm Hf w Hw. rewrite bind_run. destruct (Hm w Hw) as [Hw' Ha].
  destruct (m w) as [[a|e] w']; simpl in *; [|done].
  by apply Hf; [apply Ha|].
Qed.

Lemma keeps_weaken {A} (I : World → Prop) (post post' : A → Prop) (m : M A) :
  keeps I post m → (∀ a, post a → post' a) → keeps I post' m.
Proof. intros Hm Himp w Hw. destruct (Hm w Hw) as [? Ha]. split; [done|]. auto. Qed.

Lemma keeps_liftResult {A} (I : World → Prop) (r : result A) :
  keeps I (fun _ => True) (liftResult r).
Proof. by intros w Hw. Qed.

Lemma keeps_readGraph (I : World → Prop) l : keeps I (fun _ => True) (readGraph l).
Proof. intros w Hw. unfold readGraph. by destruct (heap w !! l). Qed.

Lemma keeps_consoleLog this g line : keeps (holds this g) (fun _ => True) (consoleLog line).
Proof. by intros w Hw. Qed.

Lemma keeps_writeGraph this g l g' :
  l ≠ this → keeps (holds this g) (fun _ => True) (writeGraph l g').
Proof.
  intros Hne w Hw. split; [|done]. unfold holds in *. simpl.
  by rewrite list_lookup_insert_ne.
Qed.

Lemma keeps_allocGraph this g g' :
  keeps (holds this g) (fun l => l ≠ this) (allocGraph g').
Proof.
  intros w Hw. unfold holds in *. simpl. split.
  - by apply lookup_app_l_Some.
  - intros l [= <-]. apply lookup_lt_Some in Hw. lia.
Qed.

Lemma keeps_forEachM {A} (I : World → Prop) (f : A → M unit) xs :
  (∀ x, keeps I (fun _ => True) (f x)) → keeps I (fun _ => True) (forEachM f xs).
Proof.
  intros Hf. induction xs as [|x xs IH]; simpl; [by apply keeps_ret|].
  eapply keeps_bind; [apply Hf | done].
Qed.

Lemma alike_ret {A} (a : A) : alike (mret a : M A) (mret a).
Proof. by intros w1 w2 Hh. Qed.

Lemma alike_bind {A B} (m1 m2 : M A) (f1 f2 : A → M B) :
  alike m1 m2 → (∀ a, alike (f1 a) (f2 a)) → alike (m1 ≫= f1) (m2 ≫= f2).
Proof.
  intros Hm Hf w1 w2 Hh. rewrite !bind_run. destruct (Hm w1 w2 Hh) as [Hr Hh'].
  destruct (m1 w1) as [[a1|e1] w1'], (m2 w2) as [[a2|e2] w2']; simpl in *; simplify_eq.
  - by apply Hf.
  - done.
Qed.

Lemma alike_liftResult {A} (r : result A) : alike (liftResult r) (liftResult r).
Proof. by intros w1 w2 Hh. Qed.

Lemma alike_readGraph l : alike (readGraph l) (readGraph l).
Proof. intros w1 w2 Hh. unfold readGraph. rewrite Hh. by destruct (heap w2 !! l). Qed.

Lemma alike_writeGraph l g : alike (writeGraph l g) (writeGraph l g).
Proof. intros w1 w2 Hh. simpl. by rewrite Hh. Qed.

Lemma alike_allocGraph g : alike (allocGraph g) (allocGraph g).
Proof. intros w1 w2 Hh. simpl. by rewrite Hh. Qed.

Lemma alike_consoleLog line1 line2 : alike (consoleLog line1) (consoleLog line2).
Proof. by intros w1 w2 Hh. Qed.

Lemma alike_forEachM {A} (f : A → M unit) xs :
  (∀ x, alike (f x) (f x)) → alike (forEachM f xs) (forEachM f xs).
Proof.
  intros Hf. induction xs as [|x xs IH]; simpl; [apply alike_ret|].
  apply alike_bind; [apply Hf | done].
Qed.

End StoreMonadFacts.

Create HintDb keeps discriminated.
Global Hint Resolve keeps_liftResult keeps_readGraph keeps_consoleLog keeps_allocGraph : keeps.

Create HintDb alike discriminated.
Global Hint Resolve alike_ret alike_liftResult alike_readGraph alike_writeGraph
  alike_allocGraph alike_consoleLog : alike.

(** ** The operations of the engine, step by step *)

Section EngineFacts.
Context {Co : Collaborators}.

(** *** The receiver is never written *)

Lemma keeps_printRewrite this g l title :
  keeps (holds this g) (fun _ => True) (printRewrite l title).
Proof.
  unfold printRewrite. eapply keeps_bind; [apply keeps_readGraph|]. intros g' _.
  destruct (negb _); [by apply keeps_ret | apply keeps_consoleLog].
Qed.

Lemma keeps_setPrintOnRewrite this g l :
  l ≠ this → keeps (holds this g) (fun _ => True) (setPrintOnRewrite l).
Proof.
  intros Hne. unfold setPrintOnRewrite.
  eapply keeps_bind; [apply keeps_readGraph|]. intros g' _. by apply keeps_writeGraph.
Qed.

Lemma keeps_printGraph_when (I : World → Prop) l :
  (∀ line, keeps I (fun _ => True) (consoleLog line)) →
  keeps I (fun _ => True) (printGraph l).
Proof.
  intros Hlog.
  unfold printGraph. eapply keeps_bind; [apply keeps_readGraph|]. intros g' _.
  eapply keeps_bind; [apply keeps_liftResult|]. intros types _.
  apply keeps_forEachM. intros [i ty].
  repeat (eapply keeps_bind; [apply keeps_liftResult|]; intros ? _).
  apply Hlog.
Qed.

Lemma keeps_printGraph this g l : keeps (holds this g) (fun _ => True) (printGraph l).
Proof. apply keeps_printGraph_when. intros line. apply keeps_consoleLog. Qed.

Lemma keeps_freeze this g l topLevels types typeAttributes :
  l ≠ this →
  keeps (holds this g) (fun _ => True) (freeze l topLevels types typeAttributes).
Proof.
  intros Hne. unfold freeze. eapply keeps_bind; [apply keeps_readGraph|]. intros g' _.
  destruct (TypeGraph.freeze _ _ _ _) as [outcome g''].
  eapply keeps_bind; [by apply keeps_writeGraph|]. intros _ _. apply keeps_liftResult.
Qed.

Lemma keeps_finish this g builder typeGraph :
  typeGraph ≠ this →
  keeps (holds this g) (fun r => r.1 = typeGraph) (finish builder typeGraph).
Proof.
  intros Hne. unfold finish. eapply keeps_bind; [apply keeps_readGraph|]. intros g' _.
  eapply keeps_bind; [apply keeps_liftResult|]. intros out _.
  eapply keeps_bind; [by apply keeps_freeze|]. intros _ _. by apply keeps_ret.
Qed.

Lemma keeps_checkLostTypeAttributes this g l out newGraph :
  keeps (holds this g) (fun _ => True) (checkLostTypeAttributes l out newGraph).
Proof.
  unfold checkLostTypeAttributes.
  repeat (eapply keeps_bind; [apply keeps_readGraph|]; intros ? _).
  apply keeps_liftResult.
Qed.

Lemma keeps_buildGeneration this g g0 builder :
  keeps (holds this g) (fun r => r.1 ≠ this) (buildGeneration this g0 builder).
Proof.
  unfold buildGeneration. eapply keeps_bind; [apply keeps_allocGraph|].
  intros typeGraph Hne. eapply keeps_bind; [by apply keeps_finish|].
  intros [newGraph out] Heq. simpl in Heq. subst newGraph.
  eapply keeps_bind; [apply keeps_checkLostTypeAttributes|]. intros _ _.
  eapply (keeps_bind _ (fun _ => True)).
  - destruct (TypeGraph._printOnRewrite g0); [|by apply keeps_ret].
    eapply keeps_bind; [by apply keeps_setPrintOnRewrite|]. intros _ _.
    apply keeps_printGraph.
  - intros _ _. by apply keeps_ret.
Qed.

(** [rewrite] and [remap] are the common part between a prologue and an
    epilogue of their own. *)
Lemma rewrite_run this title stringTypeMapping alphabetizeProperties replacementGroups
    debug replacer force w :
  rewrite this title stringTypeMapping alphabetizeProperties replacementGroups debug
          replacer force w =
  (_ ← printRewrite this title;
   if negb force && bool_decide (length replacementGroups = 0) then mret this
   else
     g ← readGraph this;
     r ← buildGeneration this g
            (newGraphRewriteBuilder g stringTypeMapping alphabetizeProperties
               (TypeGraph._haveProvenanceAttributes g) replacementGroups debug replacer);
     if negb (didAddForwardingIntersection r.2) then mret r.1
     else removeIndirectionIntersections r.1 stringTypeMapping debug) w.
Proof.
  unfold rewrite, buildGeneration. rewrite !bind_run.
  destruct (printRewrite this title w) as [[[]|e] w0]; [|done].
  destruct (negb force && _); [done|]. rewrite !bind_run.
  destruct (readGraph this w0) as [[g|e] w1]; [|done]. rewrite !bind_run.
  destruct (allocGraph _ w1) as [[typeGraph|e] w2]; [|done]. rewrite !bind_run.
  destruct (finish _ typeGraph w2) as [[[newGraph out]|e] w3]; [|done]. rewrite !bind_run.
  destruct (checkLostTypeAttributes this out newGraph w3) as [[[]|e] w4]; [|done].
  rewrite !bind_run.
  match goal with
  | |- context [match ?m w4 with _ => _ end] => destruct (m w4) as [[[]|e] w5]
  end; done.
Qed.

Lemma remap_run this title stringTypeMapping alphabetizeProperties map debug force w :
  remap this title stringTypeMapping alphabetizeProperties map debug force w =
  (_ ← printRewrite this title;
   if negb force && bool_decide (length map = 0) then mret this
   else
     g ← readGraph this;
     r ← buildGeneration this g
            (newGraphRemapBuilder g stringTypeMapping alphabetizeProperties
               (TypeGraph._haveProvenanceAttributes g) map debug);
     _ ← liftResult (assert (negb (didAddForwardingIntersection r.2)) "Assertion failed");
     mret r.1) w.
Proof.
  unfold remap, buildGeneration. rewrite !bind_run.
  destruct (printRewrite this title w) as [[[]|e] w0]; [|done].
  destruct (negb force && _); [done|]. rewrite !bind_run.
  destruct (readGraph this w0) as [[g|e] w1]; [|done]. rewrite !bind_run.
  destruct (allocGraph _ w1) as [[typeGraph|e] w2]; [|done]. rewrite !bind_run.
  destruct (finish _ typeGraph w2) as [[[newGraph out]|e] w3]; [|done]. rewrite !bind_run.
  destruct (checkLostTypeAttributes this out newGraph w3) as [[[]|e] w4]; [|done].
  rewrite !bind_run.
  match goal with
  | |- context [match ?m w4 with _ => _ end] => destruct (m w4) as [[[]|e] w5]
  end; done.
Qed.

(** *** The console does not steer the engine *)

Ltac alike_step := apply alike_bind; [auto with alike | intros ?].

Lemma alike_printRewrite this title1 title2 :
  alike (printRewrite this title1) (printRewrite this title2).
Proof.
  unfold printRewrite. alike_step. destruct (negb _); auto with alike.
Qed.

Lemma alike_printGraph l : alike (printGraph l) (printGraph l).
Proof.
  unfold printGraph. do 2 alike_step. apply alike_forEachM. intros [i ty].
  do 3 alike_step. auto with alike.
Qed.

Lemma alike_buildGeneration this g builder :
  alike (buildGeneration this g builder) (buildGeneration this g builder).
Proof.
  unfold buildGeneration. alike_step. apply alike_bind.
  { unfold finish. do 2 alike_step. apply alike_bind; [|auto with alike].
    unfold freeze. alike_step. destruct (TypeGraph.freeze _ _ _ _).
    alike_step. auto with alike. }
  intros [newGraph out]. apply alike_bind.
  { unfold checkLostTypeAttributes. do 2 alike_step. auto with alike. }
  intros _. apply alike_bind; [|auto with alike].
  destruct (TypeGraph._printOnRewrite g); [|auto with alike].
  apply alike_bind; [|intros _; apply alike_printGraph].
  unfold setPrintOnRewrite. alike_step. auto with alike.
Qed.

(** The title of a remap reaches the console and nothing else. *)
Lemma alike_remap this title1 title2 stringTypeMapping alphabetizeProperties map debug force :
  alike (remap this title1 stringTypeMapping alphabetizeProperties map debug force)
        (remap this title2 stringTypeMapping alphabetizeProperties map debug force).
Proof.
  intros w1 w2 Hh. rewrite !remap_run. revert w1 w2 Hh.
  apply alike_bind; [apply alike_printRewrite|]. intros _.
  destruct (negb force && _); [auto with alike|].
  alike_step. apply alike_bind; [apply alike_buildGeneration|]. intros r.
  alike_step. auto with alike.
Qed.

(** *** A generation that was built *)

Lemma readGraph_run l g w : heap w !! l = Some g → readGraph l w = (Ok g, w).
Proof. intros Hl. unfold readGraph. by rewrite Hl. Qed.

Lemma printRewrite_run this g title w :
  heap w !! this = Some g →
  ∃ w0, printRewrite this title w = (Ok tt, w0) ∧ heap w0 = heap w.
Proof.
  intros Hthis. unfold printRewrite. rewrite bind_run, (readGraph_run _ _ _ Hthis).
  destruct (negb _); eexists; (split; [reflexivity | done]).
Qed.

Lemma printGraph_heap l w : heap (printGraph l w).2 = heap w.
Proof.
  apply (keeps_printGraph_when (fun w' => heap w' = heap w) l); [|done].
  by intros line w' Hw'.
Qed.

(** What a successful [freeze] leaves. *)
Lemma freeze_ok g topLevels types typeAttributes g' :
  TypeGraph.freeze g topLevels types typeAttributes = (Ok tt, g') →
  TypeGraph.isFrozen g' = true ∧
  TypeGraph.serial g' = TypeGraph.serial g ∧
  TypeGraph._types g' = Some types ∧
  TypeGraph._attributeStore g'
    = Some (TypeAttributeStore.new (TypeGraph.serial g) typeAttributes) ∧
  TypeGraph._haveProvenanceAttributes g' = TypeGraph._haveProvenanceAttributes g ∧
  TypeGraph._printOnRewrite g' = TypeGraph._printOnRewrite g.
Proof.
  unfold TypeGraph.freeze.
  destruct (assert _ _) as [[]|e]; [|done].
  destruct (forEach _ _ _) as [[]|e]; [|done].
  destruct (mapMap _ _) as [tl|e]; [|done]. by intros [= <-].
Qed.

(** What a successful [buildGeneration] has done: it allocated the next
    location, the builder constructed its output against the new, open
    graph, [freeze] accepted it, the lost-attribute check passed, and
    the new object is the frozen graph, with printing switched on if
    it was on for the receiver. *)
Lemma buildGeneration_ok this g builder w newGraph out w1 :
  heap w !! this = Some g →
  buildGeneration this g builder w = (Ok (newGraph, out), w1) →
  let fresh :=
    TypeGraph.new (asTypeBuilder builder) (TypeGraph.serial g + 1)
      (TypeGraph._haveProvenanceAttributes g) in
  newGraph = length (heap w) ∧
  construct builder fresh = Ok out ∧
  ∃ frozen,
    TypeGraph.freeze fresh (builtTopLevels out) (builtTypes out) (builtTypeAttributes out)
      = (Ok tt, frozen) ∧
    TypeGraph.checkLostTypeAttributes g (lostTypeAttributes out) frozen = Ok tt ∧
    heap w1 = heap w ++ [if TypeGraph._printOnRewrite g
                         then TypeGraph.setPrintOnRewrite frozen else frozen].
Proof.
  intros Hthis Hrun fresh. unfold buildGeneration in Hrun.
  rewrite bind_run in Hrun. simpl in Hrun. fold fresh in Hrun.
  set (w0 := {| heap := heap w ++ [fresh]; console := console w |}) in Hrun.
  assert (heap w0 !! length (heap w) = Some fresh) as Hfresh.
  { simpl. by rewrite list_lookup_middle. }
  assert (heap w0 !! this = Some g) as Hthis0.
  { simpl. by apply lookup_app_l_Some. }
  rewrite bind_run in Hrun. unfold finish in Hrun at 1.
  rewrite bind_run, (readGraph_run _ _ _ Hfresh), bind_run in Hrun.
  unfold liftResult in Hrun at 1.
  destruct (construct builder fresh) as [out'|e] eqn:Hconstruct; [|done].
  rewrite bind_run in Hrun. unfold freeze in Hrun at 1.
  rewrite bind_run, (readGraph_run _ _ _ Hfresh) in Hrun.
  destruct (TypeGraph.freeze fresh _ _ _) as [outcome frozen] eqn:Hfreeze.
  rewrite bind_run in Hrun. simpl in Hrun.
  destruct outcome as [[]|e]; [|done]. simpl in Hrun.
  assert (<[length (heap w) := frozen]> (heap w ++ [fresh]) = heap w ++ [frozen]) as Hheap.
  { rewrite insert_app_r_alt by lia. by rewrite Nat.sub_diag. }
  rewrite Hheap in Hrun.
  set (w2 := {| heap := heap w ++ [frozen]; console := console w |}) in Hrun.
  assert (heap w2 !! length (heap w) = Some frozen) as Hfrozen.
  { simpl. by rewrite list_lookup_middle. }
  assert (heap w2 !! this = Some g) as Hthis2.
  { simpl. by apply lookup_app_l_Some. }
  rewrite bind_run in Hrun. unfold checkLostTypeAttributes in Hrun at 1.
  rewrite bind_run, (readGraph_run _ _ _ Hthis2) in Hrun.
  rewrite bind_run, (readGraph_run _ _ _ Hfrozen) in Hrun.
  unfold liftResult in Hrun at 1.
  destruct (TypeGraph.checkLostTypeAttributes g _ frozen) as [[]|e] eqn:Hcheck; [|done].
  rewrite bind_run in Hrun.
  destruct (TypeGraph._printOnRewrite g) eqn:Hprint.
  - rewrite bind_run in Hrun. unfold setPrintOnRewrite in Hrun at 1.
    rewrite bind_run, (readGraph_run _ _ _ Hfrozen) in Hrun. simpl in Hrun.
    match type of Hrun with
    | context [printGraph ?l ?w'] =>
        pose proof (printGraph_heap l w') as Hp; destruct (printGraph l w') as [[[]|e] w3]
    end; [|done].
    injection Hrun as <- <- <-. simpl in Hp. split_and!; [done | done |].
    exists frozen. split_and!; [done | done |]. rewrite Hp.
    rewrite insert_app_r_alt by lia. by rewrite Nat.sub_diag.
  - simpl in Hrun. injection Hrun as <- <- <-. split_and!; [done | done |].
    by exists frozen.
Qed.

(** When the builder's output freezes and the lost-attribute check
    rejects it, that error is the outcome of the whole operation. *)
Lemma buildGeneration_check_fails this g builder w out frozen e :
  heap w !! this = Some g →
  let fresh :=
    TypeGraph.new (asTypeBuilder builder) (TypeGraph.serial g + 1)
      (TypeGraph._haveProvenanceAttributes g) in
  construct builder fresh = Ok out →
  TypeGraph.freeze fresh (builtTopLevels out) (builtTypes out) (builtTypeAttributes out)
    = (Ok tt, frozen) →
  TypeGraph.checkLostTypeAttributes g (lostTypeAttributes out) frozen = Err e →
  (buildGeneration this g builder w).1 = Err e.
Proof.
  intros Hthis fresh Hconstruct Hfreeze Hcheck. unfold buildGeneration.
  rewrite bind_run. simpl. fold fresh.
  set (w0 := {| heap := heap w ++ [fresh]; console := console w |}).
  assert (heap w0 !! length (heap w) = Some fresh) as Hfresh.
  { simpl. by rewrite list_lookup_middle. }
  rewrite bind_run. unfold finish at 1.
  rewrite bind_run, (readGraph_run _ _ _ Hfresh), bind_run.
  unfold liftResult at 1. rewrite Hconstruct.
  rewrite bind_run. unfold freeze at 1.
  rewrite bind_run, (readGraph_run _ _ _ Hfresh), Hfreeze, bind_run. simpl.
  rewrite insert_app_r_alt by lia. rewrite Nat.sub_diag. simpl.
  set (w2 := {| heap := heap w ++ [frozen]; console := console w |}).
  assert (heap w2 !! length (heap w) = Some frozen) as Hfrozen.
  { simpl. by rewrite list_lookup_middle. }
  assert (heap w2 !! this = Some g) as Hthis2.
  { simpl. by apply lookup_app_l_Some. }
  rewrite bind_run. unfold checkLostTypeAttributes at 1.
  rewrite bind_run, (readGraph_run _ _ _ Hthis2).
  rewrite bind_run, (readGraph_run _ _ _ Hfrozen).
  unfold liftResult at 1. by rewrite Hcheck.
Qed.

(** So [rewrite] and [remap] surface the attributes-not-propagated
    error of the check. *)
Lemma rewrite_reports_lost_attributes this g w title stringTypeMapping alphabetizeProperties
    replacementGroups debug replacer force out frozen e :
  heap w !! this = Some g →
  negb force && bool_decide (length replacementGroups = 0) = false →
  let builder :=
    newGraphRewriteBuilder g stringTypeMapping alphabetizeProperties
      (TypeGraph._haveProvenanceAttributes g) replacementGroups debug replacer in
  let fresh :=
    TypeGraph.new (asTypeBuilder builder) (TypeGraph.serial g + 1)
      (TypeGraph._haveProvenanceAttributes g) in
  construct builder fresh = Ok out →
  TypeGraph.freeze fresh (builtTopLevels out) (builtTypes out) (builtTypeAttributes out)
    = (Ok tt, frozen) →
  TypeGraph.checkLostTypeAttributes g (lostTypeAttributes out) frozen = Err e →
  (rewrite this title stringTypeMapping alphabetizeProperties replacementGroups debug
           replacer force w).1 = Err e.
Proof.
  intros Hthis Hgo builder fresh Hconstruct Hfreeze Hcheck.
  destruct (printRewrite_run this g title w Hthis) as (w0 & Hp & Hh).
  assert (heap w0 !! this = Some g) as Hthis0 by by rewrite Hh.
  rewrite rewrite_run, bind_run, Hp, Hgo, bind_run, (readGraph_run _ _ _ Hthis0), bind_run.
  pose proof (buildGeneration_check_fails this g builder w0 out frozen e Hthis0
                Hconstruct Hfreeze Hcheck) as Hbuild.
  fold builder. by destruct (buildGeneration this g builder w0) as [[r|e'] w1]; simplify_eq/=.
Qed.

Lemma remap_reports_lost_attributes this g w title stringTypeMapping alphabetizeProperties
    map debug force out frozen e :
  heap w !! this = Some g →
  negb force && bool_decide (length map = 0) = false →
  let builder :=
    newGraphRemapBuilder g stringTypeMapping alphabetizeProperties
      (TypeGraph._haveProvenanceAttributes g) map debug in
  let fresh :=
    TypeGraph.new (asTypeBuilder builder) (TypeGraph.serial g + 1)
      (TypeGraph._haveProvenanceAttributes g) in
  construct builder fresh = Ok out →
  TypeGraph.freeze fresh (builtTopLevels out) (builtTypes out) (builtTypeAttributes out)
    = (Ok tt, frozen) →
  TypeGraph.checkLostTypeAttributes g (lostTypeAttributes out) frozen = Err e →
  (remap this title stringTypeMapping alphabetizeProperties map debug force w).1 = Err e.
Proof.
  intros Hthis Hgo builder fresh Hconstruct Hfreeze Hcheck.
  destruct (printRewrite_run this g title w Hthis) as (w0 & Hp & Hh).
  assert (heap w0 !! this = Some g) as Hthis0 by by rewrite Hh.
  rewrite remap_run, bind_run, Hp, Hgo, bind_run, (readGraph_run _ _ _ Hthis0), bind_run.
  pose proof (buildGeneration_check_fails this g builder w0 out frozen e Hthis0
                Hconstruct Hfreeze Hcheck) as Hbuild.
  fold builder. by destruct (buildGeneration this g builder w0) as [[r|e'] w1]; simplify_eq/=.
Qed.

End EngineFacts.

(** ** C5: nothing to do, nothing built *)

(** C5.  On an allocated graph object, [rewrite] with no replacement
    group and [force = false], and [remap] with an empty map and
    [force = false], return the receiver itself and leave the store of
    graph objects as it was: no object is allocated and none is
    written. *)
Theorem noop_rewrite_and_remap_return_the_receiver {Co : Collaborators}
    (w : World) (this : loc) (g : TypeGraph.t) (title : string)
    (stringTypeMapping : StringTypeMapping) (alphabetizeProperties debug : bool)
    (replacer : Replacer) :
  heap w !! this = Some g →
  (∃ w', rewrite this title stringTypeMapping alphabetizeProperties [] debug replacer false w
           = (Ok this, w') ∧ heap w' = heap w) ∧
  (∃ w', remap this title stringTypeMapping alphabetizeProperties [] debug false w
           = (Ok this, w') ∧ heap w' = heap w).
Proof.
  intros Hthis.
  destruct (printRewrite_run this g title w Hthis) as (w0 & Hp & Hh).
  split; exists w0; (split; [|done]).
  - unfold rewrite. by rewrite bind_run, Hp.
  - unfold remap. by rewrite bind_run, Hp.
Qed.

Lemma noop_rewrite_and_remap_return_the_receiver_witness :
  (∃ w', rewrite (Co := Scenario.collaborators) 0 "noop" tt false [] false tt false
           Scenario.startWorld = (Ok 0, w') ∧ heap w' = heap Scenario.startWorld) ∧
  (∃ w', remap (Co := Scenario.collaborators) 0 "noop" tt false [] false false
           Scenario.startWorld = (Ok 0, w') ∧ heap w' = heap Scenario.startWorld).
Proof.
  apply (noop_rewrite_and_remap_return_the_receiver (Co := Scenario.collaborators)
           Scenario.startWorld 0 Scenario.fourNodes).
  reflexivity.
Defined.

(** ** C6: garbage collection *)

(** C6.  [garbageCollect(alphabetizeProperties, debug)] is [remap] with
    the no-op string type mapping, an empty map and [force = true]: run
    from the same world the two are equal, and the title that
    [garbageCollect] passes matters to the console only, so that under
    any title the remap has the same outcome and leaves the same graph
    objects. *)
Theorem garbageCollect_is_forced_empty_remap {Co : Collaborators}
    (w : World) (this : loc) (alphabetizeProperties debug : bool) :
  garbageCollect this alphabetizeProperties debug w
    = remap this "GC" getNoStringTypeMapping alphabetizeProperties [] debug true w ∧
  ∀ title,
    (garbageCollect this alphabetizeProperties debug w).1
      = (remap this title getNoStringTypeMapping alphabetizeProperties [] debug true w).1 ∧
    heap (garbageCollect this alphabetizeProperties debug w).2
      = heap (remap this title getNoStringTypeMapping alphabetizeProperties [] debug true w).2.
Proof.
  assert (garbageCollect this alphabetizeProperties debug w
    = remap this "GC" getNoStringTypeMapping alphabetizeProperties [] debug true w) as Hgc.
  { unfold garbageCollect. rewrite bind_run. by destruct (remap _ _ _ _ _ _ _ w) as [[l|e] w']. }
  split; [done|]. intros title. rewrite Hgc. by apply alike_remap.
Qed.

(** ** C7: a new generation *)

Lemma scenario_lawful : @LawfulCollaborators Scenario.collaborators.
Proof. constructor. intros this g graph stm debug Hne. by apply keeps_ret. Qed.

Section GenerationFacts.
Context {Co : Collaborators} {Law : LawfulCollaborators}.

(** Whatever its outcome, a rewrite leaves the receiver as it was. *)
Lemma keeps_rewrite this g title stringTypeMapping alphabetizeProperties replacementGroups
    debug replacer force :
  keeps (holds this g) (fun _ => True)
    (rewrite this title stringTypeMapping alphabetizeProperties replacementGroups debug
             replacer force).
Proof.
  intros w Hw. rewrite rewrite_run. revert w Hw.
  eapply keeps_bind; [apply keeps_printRewrite|]. intros _ _.
  destruct (negb force && _); [by apply keeps_ret|].
  eapply keeps_bind; [apply keeps_readGraph|]. intros g' _.
  eapply keeps_bind; [apply keeps_buildGeneration|]. intros r Hr.
  destruct (negb _); [by apply keeps_ret|].
  by apply removeIndirectionIntersections_frame.
Qed.

Lemma keeps_remap this g title stringTypeMapping alphabetizeProperties map debug force :
  keeps (holds this g) (fun _ => True)
    (remap this title stringTypeMapping alphabetizeProperties map debug force).
Proof.
  intros w Hw. rewrite remap_run. revert w Hw.
  eapply keeps_bind; [apply keeps_printRewrite|]. intros _ _.
  destruct (negb force && _); [by apply keeps_ret|].
  eapply keeps_bind; [apply keeps_readGraph|]. intros g' _.
  eapply keeps_bind; [apply keeps_buildGeneration|]. intros r Hr.
  eapply keeps_bind; [apply keeps_liftResult|]. intros _ _. by apply keeps_ret.
Qed.

(** The object that a successful [buildGeneration] leaves at the new
    location. *)
Lemma buildGeneration_new_object this g builder w newGraph out w1 :
  heap w !! this = Some g →
  buildGeneration this g builder w = (Ok (newGraph, out), w1) →
  newGraph = length (heap w) ∧ newGraph ≠ this ∧
  ∃ g', heap w1 !! newGraph = Some g' ∧
        TypeGraph.serial g' = TypeGraph.serial g + 1 ∧
        TypeGraph.isFrozen g' = true ∧
        TypeGraph._types g' = Some (builtTypes out) ∧
        TypeGraph._haveProvenanceAttributes g' = TypeGraph._haveProvenanceAttributes g.
Proof.
  intros Hthis Hrun.
  destruct (buildGeneration_ok _ _ _ _ _ _ _ Hthis Hrun)
    as (-> & _ & frozen & Hfreeze & _ & Hheap).
  apply freeze_ok in Hfreeze as (Hf & Hs & Ht & _ & Hp & _). simpl in *.
  split_and!; [done | apply lookup_lt_Some in Hthis; lia |].
  eexists. split; [rewrite Hheap; by apply list_lookup_middle|].
  by destruct (TypeGraph._printOnRewrite g).
Qed.

End GenerationFacts.

(** C7.  Take an allocated graph object [g] at [this].  Whatever their
    arguments and outcome, [rewrite] and [remap] leave that object as
    it was, fields and all.  When they get past the no-op test and
    succeed, they have allocated one new object at the next free
    location, different from [this], frozen, with serial
    [serial g + 1] and with the builder's nodes as node array; [remap]
    returns that object, and so does [rewrite] unless the builder
    added a forwarding intersection, in which case [rewrite] returns
    what the corrective pass over that object returns. *)
Theorem new_generation_has_next_serial_and_old_is_untouched {Co : Collaborators} {Law : LawfulCollaborators}
    (w : World) (this : loc) (g : TypeGraph.t) (title : string)
    (stringTypeMapping : StringTypeMapping) (alphabetizeProperties debug force : bool)
    (replacementGroups : list (list Type_)) (replacer : Replacer)
    (map : list (Type_ * Type_)) :
  heap w !! this = Some g →
  let rewritten :=
    rewrite this title stringTypeMapping alphabetizeProperties replacementGroups debug
            replacer force w in
  let remapped :=
    remap this title stringTypeMapping alphabetizeProperties map debug force w in
  let fresh := length (heap w) in
  heap rewritten.2 !! this = Some g ∧
  heap remapped.2 !! this = Some g ∧
  (∀ result, negb force && bool_decide (length replacementGroups = 0) = false →
     rewritten.1 = Ok result →
     fresh ≠ this ∧
     ∃ out w1 g',
       heap w1 !! fresh = Some g' ∧
       TypeGraph.serial g' = TypeGraph.serial g + 1 ∧
       TypeGraph.isFrozen g' = true ∧
       TypeGraph._types g' = Some (builtTypes out) ∧
       if didAddForwardingIntersection out
       then removeIndirectionIntersections fresh stringTypeMapping debug w1
              = (Ok result, rewritten.2)
       else result = fresh ∧ rewritten.2 = w1) ∧
  (∀ result, negb force && bool_decide (length map = 0) = false →
     remapped.1 = Ok result →
     result = fresh ∧ fresh ≠ this ∧
     ∃ out g',
       heap remapped.2 !! fresh = Some g' ∧
       TypeGraph.serial g' = TypeGraph.serial g + 1 ∧
       TypeGraph.isFrozen g' = true ∧
       TypeGraph._types g' = Some (builtTypes out)).
Proof.
  intros Hthis rewritten remapped fresh.
  destruct (printRewrite_run this g title w Hthis) as (w0 & Hp & Hh).
  assert (heap w0 !! this = Some g) as Hthis0 by by rewrite Hh.
  split_and!.
  - by apply (keeps_rewrite this g).
  - by apply (keeps_remap this g).
  - intros result Hgo Hrun. subst rewritten fresh.
    destruct (rewrite _ _ _ _ _ _ _ _ w) as [r w'] eqn:Hrw. simpl in Hrun. subst r.
    rewrite rewrite_run, bind_run, Hp, Hgo, bind_run, (readGraph_run _ _ _ Hthis0) in Hrw.
    rewrite bind_run in Hrw.
    destruct (buildGeneration _ _ _ w0) as [[[newGraph out]|e] w1] eqn:Hbuild; [|done].
    destruct (buildGeneration_new_object _ _ _ _ _ _ _ Hthis0 Hbuild)
      as (-> & Hne & g' & Hg' & Hs & Hf & Ht & _).
    rewrite Hh in *. simpl in Hrw. split; [done|]. exists out, w1, g'.
    split_and!; [done | done | done | done |].
    destruct (didAddForwardingIntersection out); simpl in Hrw; [done|].
    by injection Hrw as <- <-.
  - intros result Hgo Hrun. subst remapped fresh.
    destruct (remap _ _ _ _ _ _ _ w) as [r w'] eqn:Hrm. simpl in Hrun. subst r.
    rewrite remap_run, bind_run, Hp, Hgo, bind_run, (readGraph_run _ _ _ Hthis0) in Hrm.
    rewrite bind_run in Hrm.
    destruct (buildGeneration _ _ _ w0) as [[[newGraph out]|e] w1] eqn:Hbuild; [|done].
    destruct (buildGeneration_new_object _ _ _ _ _ _ _ Hthis0 Hbuild)
      as (-> & Hne & g' & Hg' & Hs & Hf & Ht & _).
    rewrite Hh in *. simpl in Hrm. rewrite bind_run in Hrm. unfold liftResult in Hrm.
    destruct (assert _ _) as [[]|e]; [|done]. simpl in Hrm. injection Hrm as <- <-.
    split_and!; [done | done |]. by exists out, g'.
Qed.

Lemma new_generation_has_next_serial_and_old_is_untouched_witness :
  let remapped :=
    remap (Co := Scenario.collaborators) 0 "GC" tt false [] false true Scenario.startWorld in
  heap remapped.2 !! 0 = Some Scenario.fourNodes ∧
  ∃ out g',
    heap remapped.2 !! 1 = Some g' ∧
    TypeGraph.serial g' = 1 ∧
    TypeGraph.isFrozen g' = true ∧
    TypeGraph._types g' = Some (builtTypes out).
Proof.
  pose proof (new_generation_has_next_serial_and_old_is_untouched
                (Co := Scenario.collaborators) (Law := scenario_lawful)
                Scenario.startWorld 0 Scenario.fourNodes "GC" tt false false true
                [] tt [] eq_refl) as (_ & Hold & _ & Hnew).
  split; [exact Hold|].
  destruct (Hnew 1 eq_refl eq_refl) as (_ & _ & out & g' & Hg').
  exists out, g'. exact Hg'.
Defined.

(** ** C3: the fixed-point loop *)

(** Whatever the collaborators, the loop returns the graph it started
    from or a graph that one rewrite of the receiver returned: no round
    rewrites the product of an earlier round. *)
Lemma rewriteFixedPointLoop_result {Co : Collaborators} (rounds : nat) (this graph : loc)
    (alphabetizeProperties debug : bool) (w w' : World) (result : loc) :
  rewriteFixedPointLoop rounds this graph alphabetizeProperties debug w = (Ok result, w') →
  result = graph ∨
  ∃ w0 w1, rewrite this "fixed-point" getNoStringTypeMapping alphabetizeProperties []
             debug mustNotHappen true w0 = (Ok result, w1).
Proof.
  revert graph w. induction rounds as [|rounds IH]; intros graph w Hrun; [done|].
  simpl in Hrun. rewrite bind_run in Hrun.
  destruct (rewrite this _ _ _ _ _ _ _ w) as [[newGraph|e] w1] eqn:Hrewrite; [|done].
  rewrite bind_run in Hrun.
  destruct (allTypesUnordered graph w1) as [[before|e] w2]; [|done].
  rewrite bind_run in Hrun.
  destruct (allTypesUnordered newGraph w2) as [[after|e] w3]; [|done].
  case_bool_decide.
  - injection Hrun as <- <-. by left.
  - apply IH in Hrun as [->|Hrun]; [|by right]. right. by exists w, w1.
Qed.

Lemma rewriteFixedPoint_result {Co : Collaborators} (rounds : nat) (this : loc)
    (alphabetizeProperties debug : bool) (w w' : World) (result : loc) :
  rewriteFixedPoint rounds this alphabetizeProperties debug w = (Ok result, w') →
  result = this ∨
  ∃ w0 w1, rewrite this "fixed-point" getNoStringTypeMapping alphabetizeProperties []
             debug mustNotHappen true w0 = (Ok result, w1).
Proof. apply rewriteFixedPointLoop_result. Qed.

(** C3 fails on the code.  Every round of the loop rewrites the
    receiver, not the graph of the previous round.  With a rebuild that
    removes one node per pass, started on a graph of four nodes, the
    loop returns the first rewrite of the receiver, with three nodes,
    although rewriting that graph once more gives two nodes; iterating
    on the previous result, as the specification has it, goes on to a stable
    graph of one node. *)
Theorem rewriteFixedPoint_rewrites_the_receiver_every_round :
  let run := rewriteFixedPoint (Co := Scenario.collaborators) 5 0 false false
               Scenario.startWorld in
  let again := rewrite (Co := Scenario.collaborators) 1 "fixed-point" tt false [] false tt
                 true run.2 in
  let iterated := iterateToFixedPoint (Co := Scenario.collaborators) 5 0 false false
                    Scenario.startWorld in
  nodeCount Scenario.startWorld 0 = Some 4 ∧
  run.1 = Ok 1 ∧ nodeCount run.2 1 = Some 3 ∧
  again.1 = Ok 3 ∧ nodeCount again.2 3 = Some 2 ∧
  iterated.1 = Ok 3 ∧ nodeCount iterated.2 3 = Some 1.
Proof. vm_compute. repeat split. Qed.

(** ** C10, on an example *)

(** With the root repointed to B, node A is reached by no root and is
    still among all types. *)
Example unreachable_node_is_listed :
  ¬ reachable Scenario.repointedGraph Scenario.nodeA ∧
  ∃ all, TypeGraph.allTypesUnordered Scenario.repointedGraph = Ok all ∧ Scenario.nodeA ∈ all.
Proof.
  split.
  - intros Hreach.
    assert (TypeGraph.filterTypes Scenario.repointedGraph None
            = Ok [Scenario.nodeB; Scenario.nodeC]) as Hrun by (vm_compute; reflexivity).
    apply filterTypes_spec in Hrun as [_ Hiff].
    assert (Scenario.nodeA ∈ [Scenario.nodeB; Scenario.nodeC]) as Hin by by apply Hiff.
    list_cases Hin; discriminate.
  - eexists. split; [reflexivity|]. vm_compute. left.
Qed.

(** * Further properties *)

(** ** The attribute store: frames, growth, round trips *)

Section StoreFurther.
Import TypeAttributeStore.

Lemma lookup_grow values i j : grow values i !! j ≫= id = values !! j ≫= id.
Proof.
  unfold grow. destruct (decide (j < length values)) as [Hj|Hj].
  - by rewrite lookup_app_l.
  - rewrite lookup_app_r by lia. rewrite (lookup_ge_None_2 values) by lia.
    destruct (replicate _ _ !! _) as [o|] eqn:E; [|done].
    by apply lookup_replicate in E as [-> _].
Qed.

Lemma set_inv this kind ty value this' :
  set this kind ty value = Ok this' → refSerial (typeRef ty) = _typeGraph this.
Proof.
  unfold set, getTypeIndex. intros Hset.
  destruct (assertTypeRefGraph _ _) as [[]|e] eqn:Ha; [|done].
  by apply assertTypeRefGraph_inv in Ha.
Qed.

(** A [set] on one node changes nothing that is read for a node with
    another index, nor for any top-level name. *)
Theorem set_leaves_other_nodes_and_top_levels (this this' : TypeAttributeStore.t)
    (kind : string) (ty : Type_) (value : AttributeValue) :
  set this kind ty value = Ok this' →
  (∀ ty', index ty' ≠ index ty →
          attributesForType this' ty' = attributesForType this ty' ∧
          ∀ kind', tryGet this' kind' ty' = tryGet this kind' ty') ∧
  (∀ name, attributesForTopLevel this' name = attributesForTopLevel this name).
Proof.
  intros Hset. pose proof (set_inv _ _ _ _ _ Hset) as E.
  rewrite set_ok in Hset by done. injection Hset as <-.
  assert (∀ ty', index ty' ≠ index ty →
    attributesForType
      (mk (_typeGraph this)
          (<[index ty:=Some (<[kind:=value]> (default ∅ (_values this !! index ty ≫= id)))]>
             (grow (_values this) (index ty)))
          (_topLevelValues this)) ty' = attributesForType this ty') as Hother.
  { intros ty' Hne. unfold attributesForType, getTypeIndex. simpl.
    destruct (assertTypeRefGraph _ _) as [[]|e]; [|done]. simpl.
    rewrite list_lookup_insert_ne by done.
    pose proof (lookup_grow (_values this) (index ty) (typeRefIndex (typeRef ty'))) as Hg.
    destruct (grow _ _ !! _) as [[a|]|], (_values this !! _) as [[b|]|];
      simpl in Hg; by simplify_eq. }
  split; [|done]. intros ty' Hne. split; [by apply Hother|].
  intros kind'. unfold tryGet. by rewrite Hother.
Qed.

Lemma set_leaves_other_nodes_and_top_levels_witness :
  ∃ this',
    set Scenario.emptyStore "kindX" Scenario.nodeB (OpaqueValue "v") = Ok this' ∧
    tryGet this' "kindX" Scenario.nodeA = tryGet Scenario.emptyStore "kindX" Scenario.nodeA.
Proof.
  eexists. split; [reflexivity|].
  apply (set_leaves_other_nodes_and_top_levels Scenario.emptyStore _ "kindX" Scenario.nodeB
           (OpaqueValue "v") eq_refl); vm_compute; lia.
Defined.

(** A reference of another graph is refused by every operation of the
    store that takes a node: each throws the same fatal error. *)
Theorem store_refuses_foreign_references (this : TypeAttributeStore.t) (kind : string)
    (ty : Type_) (value : AttributeValue) :
  refSerial (typeRef ty) ≠ _typeGraph this →
  let refused {A} : result A :=
    Err (FatalInvariantViolation "Mixing the wrong type reference and graph") in
  set this kind ty value = refused ∧
  tryGet this kind ty = refused ∧
  attributesForType this ty = refused ∧
  TypeAttributeStoreView.get (TypeAttributeStoreView.mk this kind) ty = refused.
Proof.
  intros Hne. unfold set, tryGet, TypeAttributeStoreView.get, TypeAttributeStoreView.tryGet,
    tryGet, attributesForType, getTypeIndex. simpl.
  by rewrite (assertTypeRefGraph_err _ _ Hne).
Qed.

Lemma store_refuses_foreign_references_witness :
  set Scenario.emptyStore "kindX" (Scenario.node 1 0 "class" []) (OpaqueValue "v")
    = Err (FatalInvariantViolation "Mixing the wrong type reference and graph").
Proof.
  apply (store_refuses_foreign_references Scenario.emptyStore "kindX"
           (Scenario.node 1 0 "class" []) (OpaqueValue "v")).
  vm_compute. lia.
Defined.

(** The array of a store only grows: a [set] at index [i] leaves it with
    [max (length, i + 1)] slots, keeps every other old slot, and fills
    the slots it adds below [i] with [undefined]. *)
Theorem set_grows_the_array (this this' : TypeAttributeStore.t) (kind : string)
    (ty : Type_) (value : AttributeValue) :
  set this kind ty value = Ok this' →
  length (_values this') = Nat.max (length (_values this)) (S (index ty)) ∧
  (∀ j, j ≠ index ty → j < length (_values this) →
        _values this' !! j = _values this !! j) ∧
  (∀ j, length (_values this) ≤ j → j < index ty → _values this' !! j = Some None) ∧
  is_Some (_values this' !! index ty ≫= id).
Proof.
  intros Hset. pose proof (set_inv _ _ _ _ _ Hset) as E.
  rewrite set_ok in Hset by done. injection Hset as <-. simpl.
  split_and!.
  - rewrite length_insert. unfold grow. rewrite length_app, length_replicate. lia.
  - intros j Hne Hj. rewrite list_lookup_insert_ne by done.
    unfold grow. by rewrite lookup_app_l.
  - intros j Hge Hlt. rewrite list_lookup_insert_ne by lia.
    unfold grow. rewrite lookup_app_r by done. apply lookup_replicate_2. lia.
  - rewrite list_lookup_insert_eq by apply length_grow. by eexists.
Qed.

Lemma set_grows_the_array_witness :
  ∃ this',
    set Scenario.emptyStore "kindX" Scenario.nodeC (OpaqueValue "v") = Ok this' ∧
    length (_values this') = 3 ∧
    _values this' !! 1 = Some None.
Proof.
  eexists. split; [reflexivity|].
  destruct (set_grows_the_array Scenario.emptyStore _ "kindX" Scenario.nodeC
              (OpaqueValue "v") eq_refl) as (Hlen & _ & Hnew & _).
  split; [exact Hlen|]. apply Hnew; vm_compute; lia.
Defined.

(** Reading where nothing was written throws nothing: a node whose slot
    is [undefined] or past the end of the array, and a top-level name
    that was never set, have the empty attribute set, and [tryGet]
    answers [undefined] there. *)
Theorem unwritten_slots_read_as_empty (this : TypeAttributeStore.t) (kind : string)
    (ty : Type_) (name : string) :
  refSerial (typeRef ty) = _typeGraph this →
  (_values this !! index ty = None ∨ _values this !! index ty = Some None →
     attributesForType this ty = Ok ∅ ∧ tryGet this kind ty = Ok None) ∧
  (_topLevelValues this !! name = None →
     attributesForTopLevel this name = ∅ ∧ tryGetForTopLevel this kind name = None).
Proof.
  intros E. split.
  - intros Hslot. unfold tryGet. rewrite attributesForType_ok by done.
    unfold tryGetInMap. destruct Hslot as [-> | ->]; simpl; (split; [done|]);
      f_equal; apply lookup_empty.
  - intros Hname. unfold tryGetForTopLevel, attributesForTopLevel, tryGetInMap.
    rewrite Hname. split; [done | apply lookup_empty].
Qed.

Lemma unwritten_slots_read_as_empty_witness :
  tryGet Scenario.emptyStore "kindX" Scenario.nodeC = Ok None.
Proof.
  apply (unwritten_slots_read_as_empty Scenario.emptyStore "kindX"
           Scenario.nodeC "R" eq_refl). by left.
Defined.

(** [setForTopLevel] and [tryGetForTopLevel] round-trip: the value
    written under a kind for a name is the value read, a second write
    replaces it, entries of other kinds and other names stay, and the
    node array is not touched. *)
Theorem setForTopLevel_round_trip (this : TypeAttributeStore.t) (kind : string)
    (name : string) (v1 v2 : AttributeValue) :
  let s1 := setForTopLevel this kind name v1 in
  let s2 := setForTopLevel s1 kind name v2 in
  tryGetForTopLevel s1 kind name = Some v1 ∧
  tryGetForTopLevel s2 kind name = Some v2 ∧
  (∀ kind', kind' ≠ kind →
     tryGetForTopLevel s2 kind' name = tryGetForTopLevel this kind' name) ∧
  (∀ kind' name', name' ≠ name →
     tryGetForTopLevel s2 kind' name' = tryGetForTopLevel this kind' name') ∧
  _values s2 = _values this.
Proof.
  unfold setForTopLevel, tryGetForTopLevel, attributesForTopLevel, tryGetInMap, setInMap.
  simpl. split_and!.
  - by rewrite !lookup_insert_eq.
  - by rewrite !lookup_insert_eq.
  - intros kind' Hne. rewrite !lookup_insert_eq. by rewrite !lookup_insert_ne.
  - intros kind' name' Hne. by rewrite !lookup_insert_ne.
  - done.
Qed.

(** Through a view, [get] is [tryGet] made strict: it returns the value
    that [set] stored, and it is a fatal error exactly when [tryGet]
    answers [undefined]. *)
Theorem view_get_is_strict_tryGet (view : TypeAttributeStoreView.t) (ty : Type_)
    (value : AttributeValue) :
  refSerial (typeRef ty) = _typeGraph (TypeAttributeStoreView._attributeStore view) →
  (∃ view', TypeAttributeStoreView.set view ty value = Ok view' ∧
            TypeAttributeStoreView.tryGet view' ty = Ok (Some value) ∧
            TypeAttributeStoreView.get view' ty = Ok value) ∧
  (isFatal (TypeAttributeStoreView.get view ty) ↔
   TypeAttributeStoreView.tryGet view ty = Ok None) ∧
  (∀ v, TypeAttributeStoreView.get view ty = Ok v ↔
        TypeAttributeStoreView.tryGet view ty = Ok (Some v)).
Proof.
  intros E. destruct view as [store kind]. simpl in E.
  unfold TypeAttributeStoreView.set, TypeAttributeStoreView.get,
    TypeAttributeStoreView.tryGet. simpl. split_and!.
  - rewrite set_ok by done. simpl. eexists. split; [done|].
    unfold tryGet. rewrite attributesForType_ok by done. simpl.
    rewrite list_lookup_insert_eq by apply length_grow. simpl.
    unfold tryGetInMap. by rewrite lookup_insert_eq.
  - unfold tryGet. rewrite attributesForType_ok by done. simpl.
    destruct (tryGetInMap _ _); simpl; split; intros Heq; by simplify_eq.
  - intros v. unfold tryGet. rewrite attributesForType_ok by done. simpl.
    destruct (tryGetInMap _ _); simpl; split; intros Heq; by simplify_eq.
Qed.

Lemma view_get_is_strict_tryGet_witness :
  isFatal (TypeAttributeStoreView.get
             (TypeAttributeStoreView.mk Scenario.emptyStore "kindX") Scenario.nodeA).
Proof.
  apply (view_get_is_strict_tryGet (TypeAttributeStoreView.mk Scenario.emptyStore "kindX")
           Scenario.nodeA (OpaqueValue "v") eq_refl).
  reflexivity.
Defined.

Lemma set_then_set this k1 k2 ty v1 v2 :
  refSerial (typeRef ty) = _typeGraph this →
  (s1 ← set this k1 ty v1; set s1 k2 ty v2) =
    Ok (mk (_typeGraph this)
           (<[index ty := Some (<[k2 := v2]> (<[k1 := v1]>
                            (default ∅ (_values this !! index ty ≫= id))))]>
              (grow (_values this) (index ty)))
           (_topLevelValues this)).
Proof.
  intros E. rewrite (set_ok this k1) by done. simpl. rewrite set_ok by done. simpl.
  rewrite list_lookup_insert_eq by apply length_grow. simpl.
  rewrite grow_id by (rewrite length_insert; apply length_grow).
  by rewrite list_insert_insert_eq.
Qed.

(** Writes of two different kinds to one node do not interfere: in
    either order both succeed and every later read, of any kind on any
    node, answers the same. *)
Theorem sets_of_different_kinds_commute (this : TypeAttributeStore.t) (k1 k2 : string)
    (ty : Type_) (v1 v2 : AttributeValue) :
  refSerial (typeRef ty) = _typeGraph this →
  k1 ≠ k2 →
  ∃ s12 s21,
    (s1 ← set this k1 ty v1; set s1 k2 ty v2) = Ok s12 ∧
    (s2 ← set this k2 ty v2; set s2 k1 ty v1) = Ok s21 ∧
    tryGet s12 k1 ty = Ok (Some v1) ∧
    tryGet s12 k2 ty = Ok (Some v2) ∧
    ∀ kind ty', tryGet s12 kind ty' = tryGet s21 kind ty'.
Proof.
  intros E Hne. rewrite !set_then_set by done.
  eexists _, _. split_and!; [done | done | | |].
  - unfold tryGet. rewrite attributesForType_ok by done. simpl.
    rewrite list_lookup_insert_eq by apply length_grow. simpl.
    unfold tryGetInMap. rewrite lookup_insert_ne by done. by rewrite lookup_insert_eq.
  - unfold tryGet. rewrite attributesForType_ok by done. simpl.
    rewrite list_lookup_insert_eq by apply length_grow. simpl.
    unfold tryGetInMap. by rewrite lookup_insert_eq.
  - intros kind ty'. by rewrite (insert_insert_ne _ k2 k1).
Qed.

Lemma sets_of_different_kinds_commute_witness :
  ∃ s12 s21,
    (s1 ← set Scenario.emptyStore "a" Scenario.nodeA (OpaqueValue "1");
     set s1 "b" Scenario.nodeA (OpaqueValue "2")) = Ok s12 ∧
    (s2 ← set Scenario.emptyStore "b" Scenario.nodeA (OpaqueValue "2");
     set s2 "a" Scenario.nodeA (OpaqueValue "1")) = Ok s21 ∧
    tryGet s12 "a" Scenario.nodeA = Ok (Some (OpaqueValue "1")) ∧
    tryGet s12 "b" Scenario.nodeA = Ok (Some (OpaqueValue "2")) ∧
    ∀ kind ty', tryGet s12 kind ty' = tryGet s21 kind ty'.
Proof.
  apply (sets_of_different_kinds_commute Scenario.emptyStore "a" "b" Scenario.nodeA);
    [reflexivity | discriminate].
Defined.

End StoreFurther.

(** ** Freezing: what is refused, what is left behind, what is installed *)

Section FreezeFurther.
Import TypeGraph.

Lemma forEach_unit_err {A} (f : A → result unit) (xs : list A) (e : Error) :
  (∀ x, x ∈ xs → f x = Ok tt ∨ f x = Err e) →
  (∃ x, x ∈ xs ∧ f x = Err e) →
  forEach (fun x _ => f x) xs tt = Err e.
Proof.
  induction xs as [|x xs IH]; intros Hall (y & Hy & Hfy); [by apply elem_of_nil in Hy|].
  simpl. destruct (Hall x ltac:(left)) as [Hx|Hx]; rewrite Hx; [|done]. simpl.
  apply IH; [intros z Hz; apply Hall; by right|].
  apply elem_of_cons in Hy as [->|Hy]; [congruence | by exists y].
Qed.

Lemma mapArray_err {A B} (f : A → result B) (xs : list A) (e : Error) :
  (∀ x, x ∈ xs → isOk (f x) ∨ f x = Err e) →
  (∃ x, x ∈ xs ∧ f x = Err e) →
  mapArray f xs = Err e.
Proof.
  induction xs as [|x xs IH]; intros Hall (y & Hy & Hfy); [by apply elem_of_nil in Hy|].
  simpl. destruct (Hall x ltac:(left)) as [Hx|Hx].
  - destruct (f x) as [b|e'] eqn:Hfx; [|done]. simpl.
    rewrite IH; [done | intros z Hz; apply Hall; by right |].
    apply elem_of_cons in Hy as [->|Hy]; [congruence | by exists y].
  - by rewrite Hx.
Qed.

(** A node that carries the reference of another graph makes [freeze]
    throw before it has written anything: the graph stays open and
    unchanged, and can be frozen later. *)
Theorem freeze_refuses_foreign_node (g : TypeGraph.t) (topLevels : list (string * TypeRef))
    (types : list Type_) (typeAttributes : list (option (gmap string AttributeValue))) :
  isFrozen g = false →
  (∃ ty, ty ∈ types ∧ refSerial (typeRef ty) ≠ serial g) →
  freeze g topLevels types typeAttributes =
    (Err (FatalInvariantViolation "Mixing the wrong type reference and graph"), g).
Proof.
  intros Hopen (ty & Hty & Hne). unfold freeze. rewrite Hopen. simpl.
  rewrite (forEach_unit_err (fun ty => assertTypeRefGraph (typeRef ty) (serial g)) types
             (FatalInvariantViolation "Mixing the wrong type reference and graph")); [done | |].
  - intros x _. destruct (decide (refSerial (typeRef x) = serial g)) as [Heq|Hneq].
    + left. by apply assertTypeRefGraph_ok.
    + right. by apply assertTypeRefGraph_err.
  - exists ty. split; [done|]. by apply assertTypeRefGraph_err.
Qed.

Lemma freeze_refuses_foreign_node_witness :
  freeze Scenario.openGraph [("R", Scenario.ref 0 0)] [Scenario.nodeA; Scenario.strayNode] [] =
    (Err (FatalInvariantViolation "Mixing the wrong type reference and graph"),
     Scenario.openGraph).
Proof.
  apply (freeze_refuses_foreign_node Scenario.openGraph); [reflexivity|].
  exists Scenario.strayNode. split; [right; left | vm_compute; lia].
Defined.

(** A top-level reference of another graph makes [freeze] throw after
    it has installed the node array and the store and cleared the
    builder: the graph is left frozen, with the top-levels it had
    before, and a later [freeze] is refused. *)
Theorem freeze_fails_late_on_foreign_top_level (g : TypeGraph.t)
    (topLevels : list (string * TypeRef)) (types : list Type_)
    (typeAttributes : list (option (gmap string AttributeValue))) :
  isFrozen g = false →
  (∀ ty, ty ∈ types → refSerial (typeRef ty) = serial g) →
  (∃ name tref, (name, tref) ∈ topLevels ∧ refSerial tref ≠ serial g) →
  let outcome := freeze g topLevels types typeAttributes in
  outcome.1 = Err (FatalInvariantViolation "Mixing the wrong type reference and graph") ∧
  isFrozen outcome.2 = true ∧
  _types outcome.2 = Some types ∧
  _attributeStore outcome.2 = Some (TypeAttributeStore.new (serial g) typeAttributes) ∧
  TypeGraph.topLevels outcome.2 = Ok (_topLevels g) ∧
  isFatal (freeze outcome.2 topLevels types typeAttributes).1.
Proof.
  intros Hopen Htypes (name & tref & Hin & Hne) outcome. subst outcome.
  assert (freeze g topLevels types typeAttributes =
    (Err (FatalInvariantViolation "Mixing the wrong type reference and graph"),
     mk None (Some (TypeAttributeStore.new (serial g) typeAttributes)) (_topLevels g)
        (Some types) (_parents g) (_printOnRewrite g) (serial g)
        (_haveProvenanceAttributes g))) as ->.
  { unfold freeze. rewrite Hopen. simpl.
    rewrite (forEach_unit_ok (fun ty => assertTypeRefGraph (typeRef ty) (serial g)));
      [|intros ty Hty; by apply assertTypeRefGraph_ok, Htypes].
    unfold mapMap.
    rewrite (mapArray_err _ _
               (FatalInvariantViolation "Mixing the wrong type reference and graph")); [done | |].
    - intros [name' tref'] _. simpl. unfold derefTypeRef. simpl.
      destruct (decide (refSerial tref' = serial g)) as [Heq|Hneq].
      + left. by rewrite assertTypeRefGraph_ok.
      + right. by rewrite assertTypeRefGraph_err.
    - exists (name, tref). split; [done|]. simpl. unfold derefTypeRef. simpl.
      by rewrite assertTypeRefGraph_err. }
  simpl. split_and!; done.
Qed.

Lemma freeze_fails_late_on_foreign_top_level_witness :
  let outcome :=
    freeze Scenario.openGraph [("R", Scenario.ref 7 0)] [Scenario.nodeA] [] in
  isFrozen outcome.2 = true ∧ TypeGraph.topLevels outcome.2 = Ok [].
Proof.
  pose proof (freeze_fails_late_on_foreign_top_level Scenario.openGraph
                [("R", Scenario.ref 7 0)] [Scenario.nodeA] []) as Hthm.
  simpl in Hthm. destruct Hthm as (_ & Hf & _ & _ & Htop & _).
  - reflexivity.
  - intros ty Hty. list_cases Hty. reflexivity.
  - exists "R", (Scenario.ref 7 0). split; [left | vm_compute; lia].
  - split; [exact Hf | exact Htop].
Defined.

(** What a successful [freeze] installs.  Every top-level name maps to
    the node at the index of its reference, or to [undefined] when the
    index is past the end, without an error.  [typeAtIndex] reads the
    node array by position.  [atIndex(i)] pairs the node at position
    [i] with the attribute slot of that node's own index, and throws on
    a position that holds no node. *)
Theorem frozen_graph_lookups (g : TypeGraph.t) (topLevels : list (string * TypeRef))
    (types : list Type_) (typeAttributes : list (option (gmap string AttributeValue))) :
  isFrozen g = false →
  (∀ ty, ty ∈ types → refSerial (typeRef ty) = serial g) →
  (∀ name tref, (name, tref) ∈ topLevels → refSerial tref = serial g) →
  let g' := (freeze g topLevels types typeAttributes).2 in
  TypeGraph.topLevels g'
    = Ok ((fun kv => (kv.1, types !! typeRefIndex kv.2)) <$> topLevels) ∧
  (∀ i, typeAtIndex g' i = Ok (types !! i)) ∧
  (∀ i ty, types !! i = Some ty →
     atIndex g' i = Ok (Some ty, default ∅ (typeAttributes !! index ty ≫= id))) ∧
  (∀ i, types !! i = None → atIndex g' i = Err JSTypeError) ∧
  serial g' = serial g.
Proof.
  intros Hopen Htypes Htops g'. subst g'. rewrite freeze_open by done. simpl.
  split_and!; [done | done | | | done].
  - intros i ty Hi. unfold atIndex, typeAtIndex. simpl. rewrite Hi. simpl.
    rewrite attributesForType_ok; [done|]. simpl.
    eapply Htypes, list_elem_of_lookup_2, Hi.
  - intros i Hi. unfold atIndex, typeAtIndex. simpl. by rewrite Hi.
Qed.

Lemma frozen_graph_lookups_witness :
  TypeGraph.topLevels Scenario.chainGraph = Ok [("R", Some Scenario.nodeA)] ∧
  atIndex Scenario.chainGraph 5 = Err JSTypeError.
Proof.
  pose proof (frozen_graph_lookups Scenario.openGraph [("R", Scenario.ref 0 0)]
                [Scenario.nodeA; Scenario.nodeB; Scenario.nodeC] []) as Hthm.
  simpl in Hthm. destruct Hthm as (Htop & _ & _ & Hout & _).
  - reflexivity.
  - intros ty Hty. list_cases Hty; reflexivity.
  - intros name tref Hin. list_cases Hin. by injection Hin as -> ->.
  - split; [exact Htop | by apply Hout].
Defined.

End FreezeFurther.

(** ** Queries: before freezing, and against each other *)

Section QueriesFurther.
Import TypeGraph.

(** On an open graph every query of the graph's content is a fatal
    invariant violation: the traversals, the provenance union, and the
    parent index when it is not cached, which leaves the object as it
    was. *)
Theorem open_graph_refuses_queries {Co : Collaborators} (g : TypeGraph.t)
    (predicate : option (Type_ → bool)) (ty : Type_) :
  isFrozen g = false →
  isFatal (filterTypes g predicate) ∧
  isFatal (allNamedTypes g) ∧
  isFatal (allProvenance g) ∧
  (_parents g = None →
     isFatal (getParentsOfType g ty).1 ∧ (getParentsOfType g ty).2 = g).
Proof.
  intros Hopen. split_and!.
  - unfold filterTypes. by rewrite topLevels_open.
  - unfold allNamedTypes, filterTypes. by rewrite topLevels_open.
  - unfold allProvenance, attributeStore.
    destruct (_haveProvenanceAttributes g); [|done]. simpl.
    destruct (_attributeStore g); [|done]. simpl. by rewrite allTypesUnordered_open.
  - intros Hcache. unfold getParentsOfType, assertTypeRefGraph, assert.
    case_bool_decide; [|done]. rewrite Hcache. unfold computeParents.
    destruct (_types g); [|done]. simpl. by rewrite allTypesUnordered_open.
Qed.

Lemma open_graph_refuses_queries_witness :
  isFatal (allNamedTypes (Co := Scenario.collaborators) Scenario.openGraph) ∧
  isFatal (getParentsOfType Scenario.openGraph Scenario.nodeA).1.
Proof.
  destruct (open_graph_refuses_queries (Co := Scenario.collaborators) Scenario.openGraph
              None Scenario.nodeA eq_refl) as (_ & Hnamed & _ & Hparents).
  split; [exact Hnamed | by apply Hparents].
Defined.

Lemma reachable_in_nodes (g : TypeGraph.t) (ty : Type_) :
  isFrozen g = true →
  (∀ name root, (name, Some root) ∈ _topLevels g → root ∈ nodes g) →
  reachable g ty → ty ∈ nodes g.
Proof.
  intros Hf Hroots (name & root & Hin & Hreach).
  apply Hroots in Hin. induction Hreach as [|p c z (children & Hc & Hcin) _ IH]; [done|].
  apply IH. pose proof (getChildren_frozen g p Hf) as Hch. rewrite Hc in Hch. by apply Hch.
Qed.

(** The three enumerations are nested.  On a frozen graph whose roots
    are nodes of the node array, whatever [allNamedTypes] returns is
    among what the unfiltered traversal returns, which is among
    [allTypesUnordered]; and the named types are exactly the traversed
    nodes that the predicate accepts. *)
Theorem enumerations_are_nested {Co : Collaborators} (g : TypeGraph.t)
    (named traversed all : list Type_) :
  isFrozen g = true →
  (∀ name root, (name, Some root) ∈ _topLevels g → root ∈ nodes g) →
  allNamedTypes g = Ok named →
  filterTypes g None = Ok traversed →
  allTypesUnordered g = Ok all →
  (∀ ty, ty ∈ named ↔ ty ∈ traversed ∧ isNamedType ty = true) ∧
  (∀ ty, ty ∈ traversed → ty ∈ all) ∧
  length named ≤ length traversed ∧ length traversed ≤ length all.
Proof.
  intros Hf Hroots Hnamed Htraversed Hall.
  apply filterTypes_spec in Hnamed as [Hnd1 Hn]. apply filterTypes_spec in Htraversed as [Hnd2 Ht].
  assert (∀ ty, ty ∈ traversed → ty ∈ all) as Hsub.
  { intros ty Hty. apply Ht in Hty as [Hreach _].
    pose proof (reachable_in_nodes g ty Hf Hroots Hreach) as Hnode.
    unfold allTypesUnordered in Hall. rewrite Hf in Hall. simpl in Hall.
    unfold nodes in Hnode. destruct (_types g) as [types|]; simpl in *; [|by apply elem_of_nil in Hnode].
    injection Hall as <-. by apply elem_of_newSet. }
  assert (∀ ty, ty ∈ named ↔ ty ∈ traversed ∧ isNamedType ty = true) as Hiff.
  { intros ty. rewrite Hn, Ht. simpl. tauto. }
  split_and!; [done | done | |].
  - apply NoDup_subset_length; [done|]. intros ty Hty. by apply Hiff in Hty as [? _].
  - by apply NoDup_subset_length.
Qed.

Lemma enumerations_are_nested_witness :
  (∀ ty, ty ∈ [Scenario.nodeX; Scenario.nodeY] ↔
         ty ∈ [Scenario.nodeX; Scenario.nodeY; Scenario.nodeZ] ∧
         isNamedType (Collaborators := Scenario.collaborators) ty = true) ∧
  (∀ ty, ty ∈ [Scenario.nodeX; Scenario.nodeY; Scenario.nodeZ] →
         ty ∈ [Scenario.nodeX; Scenario.nodeY; Scenario.nodeZ]).
Proof.
  destruct (enumerations_are_nested (Co := Scenario.collaborators) Scenario.cyclicGraph
              [Scenario.nodeX; Scenario.nodeY]
              [Scenario.nodeX; Scenario.nodeY; Scenario.nodeZ]
              [Scenario.nodeX; Scenario.nodeY; Scenario.nodeZ]) as (Hiff & Hsub & _).
  - reflexivity.
  - intros name root Hin. vm_compute in Hin. list_cases Hin.
    injection Hin as -> ->. vm_compute. left.
  - vm_compute. reflexivity.
  - vm_compute. reflexivity.
  - vm_compute. reflexivity.
  - split; [exact Hiff | exact Hsub].
Defined.

(** Without provenance tracking [allProvenance] is a fatal error, and
    the lost-attribute check never gets there: on such a receiver, and
    whenever the builder declares lost attributes, the check returns
    normally whatever the two graphs hold. *)
Theorem provenance_needs_tracking (this newGraph : TypeGraph.t) (lost : bool) :
  (_haveProvenanceAttributes this = false →
     isFatal (allProvenance this) ∧ checkLostTypeAttributes this lost newGraph = Ok tt) ∧
  checkLostTypeAttributes this true newGraph = Ok tt.
Proof.
  split.
  - intros Hp. split; [unfold allProvenance; by rewrite Hp|].
    apply checkLostTypeAttributes_inactive. by left.
  - apply checkLostTypeAttributes_inactive. by right.
Qed.

Lemma provenance_needs_tracking_witness :
  isFatal (allProvenance Scenario.chainGraph) ∧
  checkLostTypeAttributes Scenario.chainGraph false Scenario.cyclicGraph = Ok tt.
Proof.
  destruct (provenance_needs_tracking Scenario.chainGraph Scenario.cyclicGraph false)
    as [Hoff _].
  by apply Hoff.
Defined.

End QueriesFurther.

(** ** The parent index *)

Section ParentsFurther.
Import TypeGraph.
Variable g : TypeGraph.t.

(** The loop over the children of one node [p]. *)
Lemma forEach_addParent p cs :
  ∀ parents,
    (∀ c, c ∈ cs → ∃ z, c = Some z ∧ index z < length parents) →
    ∃ parents',
      forEach (addParent p) cs parents = Ok parents' ∧
      length parents' = length parents ∧
      ∀ j s s', parents !! j = Some s → parents' !! j = Some s' →
        (NoDup s → NoDup s') ∧
        ∀ x, x ∈ s' ↔ x ∈ s ∨ (x = p ∧ ∃ z, Some z ∈ cs ∧ index z = j).
Proof.
  induction cs as [|c cs IH]; intros parents Hcs; simpl.
  - exists parents. split_and!; [done | done |].
    intros j s s' Hs Hs'. assert (s' = s) as -> by congruence. split; [done|].
    intros x. split; [by left|]. intros [?|[_ (z & Hz & _)]]; [done|].
    by apply elem_of_nil in Hz.
  - destruct (Hcs c ltac:(left)) as (z & -> & Hz). simpl.
    destruct (lookup_lt_is_Some_2 parents (index z) Hz) as [s0 Hs0]. rewrite Hs0. simpl.
    destruct (IH (<[index z := setAdd s0 p]> parents)) as (parents' & Hrun & Hlen & Hspec).
    { intros c' Hc'. rewrite length_insert. apply Hcs. by right. }
    exists parents'. rewrite length_insert in Hlen. split_and!; [done | done |].
    intros j s s' Hs Hs'.
    destruct (decide (j = index z)) as [->|Hne].
    + assert (s = s0) as -> by congruence.
      destruct (Hspec (index z) (setAdd s0 p) s') as [Hnd Hiff];
        [by apply list_lookup_insert_eq | done |].
      split; [intros ?; by apply Hnd, NoDup_setAdd|].
      intros x. rewrite Hiff, elem_of_setAdd. split.
      * intros [[?| ->]|(-> & z' & Hz' & Hi)]; [by left | |].
        -- right. split; [done|]. exists z. split; [left | done].
        -- right. split; [done|]. exists z'. split; [by right | done].
      * intros [?|(-> & z' & Hz' & Hi)]; [by left; left|].
        apply elem_of_cons in Hz' as [[= <-]|Hz']; [by left; right|].
        right. split; [done|]. by exists z'.
    + destruct (Hspec j s s') as [Hnd Hiff]; [by rewrite list_lookup_insert_ne | done |].
      split; [done|]. intros x. rewrite Hiff. split.
      * intros [?|(-> & z' & Hz' & Hi)]; [by left|].
        right. split; [done|]. exists z'. split; [by right | done].
      * intros [?|(-> & z' & Hz' & Hi)]; [by left|].
        apply elem_of_cons in Hz' as [[= <-]|Hz']; [done|].
        right. split; [done|]. by exists z'.
Qed.

(** The loop over all nodes. *)
Lemma forEach_parents_of all :
  ∀ parents,
    (∀ p, p ∈ all → ∃ children, getChildren g p = Ok children ∧
            ∀ c, c ∈ children → ∃ z, c = Some z ∧ index z < length parents) →
    ∃ parents',
      forEach (fun p parents =>
                 children ← getChildren g p; forEach (addParent p) children parents)
              all parents = Ok parents' ∧
      length parents' = length parents ∧
      ∀ j s s', parents !! j = Some s → parents' !! j = Some s' →
        (NoDup s → NoDup s') ∧
        ∀ x, x ∈ s' ↔ x ∈ s ∨ (x ∈ all ∧ hasChildAt g x j).
Proof.
  induction all as [|p all IH]; intros parents Hall; simpl.
  - exists parents. split_and!; [done | done |].
    intros j s s' Hs Hs'. assert (s' = s) as -> by congruence. split; [done|].
    intros x. split; [by left|]. intros [?|[Hx _]]; [done|]. by apply elem_of_nil in Hx.
  - destruct (Hall p ltac:(left)) as (children & Hchildren & Hcs). rewrite Hchildren. simpl.
    destruct (forEach_addParent p children parents Hcs) as (parents1 & -> & Hlen1 & Hspec1).
    simpl. destruct (IH parents1) as (parents' & Hrun & Hlen & Hspec).
    { intros p' Hp'. rewrite Hlen1. apply Hall. by right. }
    exists parents'. split_and!; [done | congruence |].
    intros j s s' Hs Hs'.
    assert (is_Some (parents1 !! j)) as [s1 Hs1].
    { apply lookup_lt_is_Some. rewrite Hlen1. by eapply lookup_lt_Some. }
    destruct (Hspec1 j s s1 Hs Hs1) as [Hnd1 Hiff1].
    destruct (Hspec j s1 s' Hs1 Hs') as [Hnd2 Hiff2].
    split; [auto|]. intros x. rewrite Hiff2, Hiff1. split.
    + intros [[?|(-> & z & Hz & Hi)]|(Hx & Hc)]; [by left | |].
      * right. split; [left|]. by exists children, z.
      * right. split; [by right | done].
    + intros [?|(Hx & children' & z & Hc' & Hz & Hi)]; [by left; left|].
      apply elem_of_cons in Hx as [->|Hx].
      * left. right. split; [done|]. exists z. split; [congruence | done].
      * right. split; [done|]. by exists children', z.
Qed.

Lemma node_at_its_index ty :
  positionsAgree g → ty ∈ nodes g → nodes g !! index ty = Some ty.
Proof.
  intros Hpos Hty. apply list_elem_of_lookup in Hty as [i Hi].
  by rewrite (Hpos i ty Hi).
Qed.

(** On a frozen graph whose references resolve and whose nodes sit at
    their own indices, the first [getParentsOfType(t)] succeeds and
    returns exactly the nodes of the node array that have [t] among
    their children, each once. *)
Theorem getParentsOfType_returns_the_parents (ty : Type_) :
  resolved g →
  positionsAgree g →
  _parents g = None →
  ty ∈ nodes g →
  refSerial (typeRef ty) = serial g →
  ∃ parents g',
    getParentsOfType g ty = (Ok (Some parents), g') ∧
    NoDup parents ∧
    ∀ p, p ∈ parents ↔ p ∈ nodes g ∧ childOf g p ty.
Proof.
  intros Hres Hpos Hcache Hty Href.
  pose proof Hres as (Hf & [types Htypes] & Hnodes & _).
  unfold getParentsOfType. rewrite assertTypeRefGraph_ok, Hcache by done.
  unfold computeParents. rewrite Htypes. simpl.
  rewrite (allTypesUnordered_frozen _ types) by done. simpl.
  assert (nodes g = types) as Hn by (unfold nodes; by rewrite Htypes).
  destruct (forEach_parents_of (newSet types) ((fun _ => []) <$> types))
    as (parents' & -> & Hlen & Hspec).
  { intros p Hp. rewrite elem_of_newSet in Hp.
    destruct (getChildren_resolved g p Hres) as (children & Hc & _);
      [apply Hnodes; by rewrite Hn|].
    exists children. split; [done|]. intros c Hin.
    pose proof (getChildren_frozen g p Hf) as Hch. rewrite Hc in Hch.
    destruct (getChildren_resolved g p Hres) as (children' & Hc' & Hsome);
      [apply Hnodes; by rewrite Hn|].
    assert (children' = children) as -> by congruence.
    destruct (Hsome c Hin) as (z & -> & _). exists z. split; [done|].
    rewrite length_fmap, <- Hn. eapply lookup_lt_Some, node_at_its_index; [done|].
    by apply Hch. }
  rewrite length_fmap in Hlen.
  pose proof (node_at_its_index ty Hpos Hty) as Hat. rewrite Hn in Hat.
  assert (is_Some (parents' !! index ty)) as [s' Hs'].
  { apply lookup_lt_is_Some. rewrite Hlen. by eapply lookup_lt_Some. }
  destruct (Hspec (index ty) [] s') as [Hnd Hiff]; [by rewrite list_lookup_fmap, Hat | done |].
  rewrite Hs'. eexists _, _. split_and!; [done | apply Hnd, NoDup_nil_2 |].
  intros p. rewrite Hiff, elem_of_newSet, Hn. split.
  - intros [Hnil|(Hp & children & z & Hc & Hz & Hi)]; [by apply elem_of_nil in Hnil|].
    split; [done|]. exists children. split; [done|].
    pose proof (getChildren_frozen g p Hf) as Hch. rewrite Hc in Hch.
    pose proof (node_at_its_index z Hpos (Hch z Hz)) as Hzat.
    rewrite Hi, Hn, Hat in Hzat. by injection Hzat as <-.
  - intros [Hp (children & Hc & Hz)]. right. split; [done|]. by exists children, ty.
Qed.

(** A call that returns has left the index in the cache and nothing
    else changed; from then on every call with a reference of the graph
    answers from the cache, returns, and leaves the object alone. *)
Theorem getParentsOfType_is_memoised (ty : Type_) (r : option (list Type_))
    (g' : TypeGraph.t) :
  getParentsOfType g ty = (Ok r, g') →
  (∃ parents, _parents g' = Some parents ∧ r = parents !! index ty ∧
     ∀ ty', refSerial (typeRef ty') = serial g →
            getParentsOfType g' ty' = (Ok (parents !! index ty'), g')) ∧
  getParentsOfType g' ty = (Ok r, g') ∧
  _types g' = _types g ∧ _topLevels g' = _topLevels g ∧
  _attributeStore g' = _attributeStore g ∧ _typeBuilder g' = _typeBuilder g ∧
  serial g' = serial g.
Proof.
  unfold getParentsOfType at 1.
  destruct (assertTypeRefGraph _ _) as [[]|e] eqn:Ha; [|done].
  apply assertTypeRefGraph_inv in Ha.
  assert (∀ parents h, _parents h = Some parents → serial h = serial g →
            ∀ ty', refSerial (typeRef ty') = serial g →
                   getParentsOfType h ty' = (Ok (parents !! index ty'), h)) as Hcached.
  { intros parents h Hp Hs ty' Href. unfold getParentsOfType.
    rewrite assertTypeRefGraph_ok by congruence. by rewrite Hp. }
  destruct (_parents g) as [parents|] eqn:Hcache.
  - intros [= <- <-]. split_and!; try done; [|by apply Hcached].
    exists parents. split_and!; [done | done |]. by apply Hcached.
  - destruct (computeParents g) as [parents|e]; [|done]. intros [= <- <-].
    split_and!; try done; [|by apply Hcached].
    exists parents. split_and!; [done | done |]. by apply Hcached.
Qed.

(** A call that throws has written nothing, and a reference of another
    graph is refused before the cache is even looked at. *)
Theorem getParentsOfType_failure_writes_nothing (ty : Type_) :
  (∀ e g', getParentsOfType g ty = (Err e, g') → g' = g) ∧
  (refSerial (typeRef ty) ≠ serial g →
     getParentsOfType g ty =
       (Err (FatalInvariantViolation "Mixing the wrong type reference and graph"), g)).
Proof.
  split.
  - intros e g'. unfold getParentsOfType.
    destruct (assertTypeRefGraph _ _); [|by intros [= _ <-]].
    destruct (_parents g); [done|].
    destruct (computeParents g); [done | by intros [= _ <-]].
  - intros Hne. unfold getParentsOfType. by rewrite assertTypeRefGraph_err.
Qed.

End ParentsFurther.

Lemma chainGraph_resolved : resolved Scenario.chainGraph.
Proof. solve_resolved. Qed.

Lemma chainGraph_positionsAgree : positionsAgree Scenario.chainGraph.
Proof.
  intros i ty Hi. vm_compute in Hi.
  destruct i as [|[|[|i]]]; simplify_eq; reflexivity.
Qed.

Lemma getParentsOfType_returns_the_parents_witness :
  ∃ parents g',
    TypeGraph.getParentsOfType Scenario.chainGraph Scenario.nodeB = (Ok (Some parents), g') ∧
    NoDup parents ∧
    ∀ p, p ∈ parents ↔ p ∈ nodes Scenario.chainGraph ∧ childOf Scenario.chainGraph p Scenario.nodeB.
Proof.
  apply (getParentsOfType_returns_the_parents Scenario.chainGraph Scenario.nodeB).
  - apply chainGraph_resolved.
  - apply chainGraph_positionsAgree.
  - reflexivity.
  - vm_compute. right. left.
  - reflexivity.
Defined.

Lemma getParentsOfType_is_memoised_witness :
  ∃ g', TypeGraph.getParentsOfType Scenario.chainGraph Scenario.nodeB
          = (Ok (Some [Scenario.nodeA]), g') ∧
        TypeGraph.getParentsOfType g' Scenario.nodeB = (Ok (Some [Scenario.nodeA]), g').
Proof.
  eexists. split; [vm_compute; reflexivity|].
  eapply (getParentsOfType_is_memoised Scenario.chainGraph Scenario.nodeB).
  vm_compute. reflexivity.
Defined.

Lemma getParentsOfType_failure_writes_nothing_witness :
  TypeGraph.getParentsOfType Scenario.chainGraph Scenario.strayNode =
    (Err (FatalInvariantViolation "Mixing the wrong type reference and graph"),
     Scenario.chainGraph).
Proof.
  apply (getParentsOfType_failure_writes_nothing Scenario.chainGraph Scenario.strayNode).
  vm_compute. lia.
Defined.

(** ** Generations: what the new object inherits, what is printed, what
    is never returned *)

Section EngineFurther.
Context {Co : Collaborators}.

(** A [remap] that got past the no-op test and returned, taken apart. *)
Lemma remap_ok_inv this g w title stringTypeMapping alphabetizeProperties map debug force
    result w' :
  heap w !! this = Some g →
  negb force && bool_decide (length map = 0) = false →
  remap this title stringTypeMapping alphabetizeProperties map debug force w
    = (Ok result, w') →
  let builder :=
    newGraphRemapBuilder g stringTypeMapping alphabetizeProperties
      (TypeGraph._haveProvenanceAttributes g) map debug in
  let fresh :=
    TypeGraph.new (asTypeBuilder builder) (TypeGraph.serial g + 1)
      (TypeGraph._haveProvenanceAttributes g) in
  ∃ out frozen,
    construct builder fresh = Ok out ∧
    TypeGraph.freeze fresh (builtTopLevels out) (builtTypes out) (builtTypeAttributes out)
      = (Ok tt, frozen) ∧
    TypeGraph.checkLostTypeAttributes g (lostTypeAttributes out) frozen = Ok tt ∧
    didAddForwardingIntersection out = false ∧
    result = length (heap w) ∧
    heap w' = heap w ++ [if TypeGraph._printOnRewrite g
                         then TypeGraph.setPrintOnRewrite frozen else frozen].
Proof.
  intros Hthis Hgo Hrun builder fresh.
  destruct (printRewrite_run this g title w Hthis) as (w0 & Hp & Hh).
  assert (heap w0 !! this = Some g) as Hthis0 by by rewrite Hh.
  rewrite remap_run, bind_run, Hp, Hgo, bind_run, (readGraph_run _ _ _ Hthis0) in Hrun.
  rewrite bind_run in Hrun. fold builder in Hrun.
  destruct (buildGeneration this g builder w0) as [[[newGraph out]|e] w1] eqn:Hbuild; [|done].
  destruct (buildGeneration_ok _ _ _ _ _ _ _ Hthis0 Hbuild)
    as (-> & Hconstruct & frozen & Hfreeze & Hcheck & Hheap).
  simpl in Hrun. rewrite bind_run in Hrun. unfold liftResult in Hrun.
  destruct (didAddForwardingIntersection out) eqn:Hfwd; [done|]. simpl in Hrun.
  injection Hrun as <- <-. exists out, frozen. rewrite Hh in *. by split_and!.
Qed.

(** The generation that [remap] returns takes over the receiver's
    print-on-rewrite switch and provenance flag, and starts without a
    parent index of its own. *)
Theorem new_generation_inherits_the_switches (this : loc) (g : TypeGraph.t) (w w' : World)
    (title : string) (stringTypeMapping : StringTypeMapping)
    (alphabetizeProperties debug force : bool) (map : list (Type_ * Type_)) (result : loc) :
  heap w !! this = Some g →
  negb force && bool_decide (length map = 0) = false →
  remap this title stringTypeMapping alphabetizeProperties map debug force w
    = (Ok result, w') →
  ∃ g', heap w' !! result = Some g' ∧
        TypeGraph._printOnRewrite g' = TypeGraph._printOnRewrite g ∧
        TypeGraph._haveProvenanceAttributes g' = TypeGraph._haveProvenanceAttributes g ∧
        TypeGraph._parents g' = None ∧
        length (heap w') = S (length (heap w)).
Proof.
  intros Hthis Hgo Hrun.
  destruct (remap_ok_inv _ _ _ _ _ _ _ _ _ _ _ Hthis Hgo Hrun)
    as (out & frozen & _ & Hfreeze & _ & _ & -> & Hheap).
  assert (TypeGraph._parents frozen = None) as Hparents.
  { revert Hfreeze. unfold TypeGraph.freeze. simpl.
    destruct (forEach _ _ _) as [[]|e]; [|done].
    destruct (mapMap _ _) as [tl|e]; [|done]. by intros [= <-]. }
  apply freeze_ok in Hfreeze as (_ & _ & _ & _ & Hp & Hprint). simpl in *.
  eexists. rewrite Hheap. split; [by apply list_lookup_middle|].
  rewrite length_app. simpl. destruct (TypeGraph._printOnRewrite g); simpl;
    split_and!; (done || lia).
Qed.

(** [remap] never returns a graph that was built with a forwarding
    intersection: where [rewrite] would run the corrective pass,
    [remap] throws. *)
Theorem remap_never_returns_a_forwarding_intersection (this : loc) (g : TypeGraph.t)
    (w : World) (title : string) (stringTypeMapping : StringTypeMapping)
    (alphabetizeProperties debug force : bool) (map : list (Type_ * Type_))
    (out : BuilderOutput) :
  heap w !! this = Some g →
  negb force && bool_decide (length map = 0) = false →
  let builder :=
    newGraphRemapBuilder g stringTypeMapping alphabetizeProperties
      (TypeGraph._haveProvenanceAttributes g) map debug in
  construct builder
    (TypeGraph.new (asTypeBuilder builder) (TypeGraph.serial g + 1)
       (TypeGraph._haveProvenanceAttributes g)) = Ok out →
  didAddForwardingIntersection out = true →
  ¬ isOk (remap this title stringTypeMapping alphabetizeProperties map debug force w).1.
Proof.
  intros Hthis Hgo builder Hconstruct Hfwd Hok.
  destruct (remap _ _ _ _ _ _ _ w) as [[result|e] w'] eqn:Hrun; [|done].
  destruct (remap_ok_inv _ _ _ _ _ _ _ _ _ _ _ Hthis Hgo Hrun)
    as (out' & frozen & Hconstruct' & _ & _ & Hfwd' & _).
  fold builder in Hconstruct'. congruence.
Qed.

(** [printGraph] writes one line per node of the node array and touches
    no graph object. *)
Theorem printGraph_prints_one_line_per_node (l : loc) (g : TypeGraph.t)
    (types : list Type_) (w w' : World) :
  heap w !! l = Some g →
  TypeGraph._types g = Some types →
  printGraph l w = (Ok tt, w') →
  heap w' = heap w ∧
  ∃ lines, console w' = console w ++ lines ∧ length lines = length types.
Proof.
  intros Hl Htypes Hrun. split.
  { pose proof (printGraph_heap l w) as Hh. by rewrite Hrun in Hh. }
  unfold printGraph in Hrun. rewrite bind_run, (readGraph_run _ _ _ Hl), Htypes in Hrun.
  rewrite bind_run in Hrun. simpl in Hrun.
  rewrite <- (length_imap (fun i ty => (i, ty)) types).
  revert Hrun. generalize (imap (fun i ty => (i, ty)) types). intros xs. clear Hl. revert w.
  induction xs as [|[i ty] xs IH]; intros w Hrun; simpl in Hrun.
  - injection Hrun as <-. exists []. by rewrite app_nil_r.
  - rewrite !bind_run in Hrun. unfold liftResult in Hrun at 1.
    destruct (TypeGraph.getChildren g ty) as [children|e]; [|done].
    rewrite bind_run in Hrun. unfold liftResult in Hrun at 1.
    destruct (TypeGraph.attributeStore g) as [store|e]; [|done].
    rewrite bind_run in Hrun. unfold liftResult in Hrun at 1.
    destruct (TypeAttributeStore.attributesForType store ty) as [attributes|e]; [|done].
    simpl in Hrun. apply IH in Hrun as (lines & Hc & Hlen). simpl in Hc.
    exists (renderLine i ty children attributes :: lines).
    rewrite Hc, <- app_assoc. simpl. split; [done | by rewrite Hlen].
Qed.









End EngineFurther.

Section LawfulFurther.
Context {Co : Collaborators} {Law : LawfulCollaborators}.

Lemma keeps_allTypesUnordered this g l :
  keeps (holds this g) (fun _ => True) (allTypesUnordered l).
Proof.
  unfold allTypesUnordered. eapply keeps_bind; [apply keeps_readGraph|]. intros g' _.
  apply keeps_liftResult.
Qed.

Lemma keeps_rewriteFixedPointLoop this g rounds graph alphabetizeProperties debug :
  keeps (holds this g) (fun _ => True)
    (rewriteFixedPointLoop rounds this graph alphabetizeProperties debug).
Proof.
  revert graph. induction rounds as [|rounds IH]; intros graph; simpl;
    [apply keeps_liftResult|].
  eapply keeps_bind; [apply (keeps_rewrite this g)|]. intros newGraph _.
  eapply keeps_bind; [apply keeps_allTypesUnordered|]. intros before _.
  eapply keeps_bind; [apply keeps_allTypesUnordered|]. intros after _.
  case_bool_decide; [by apply keeps_ret | apply IH].
Qed.

(** The fixed-point pass and garbage collection leave the receiver as it
    was, whatever they return or throw and however many rounds run. *)
Theorem fixed_point_and_gc_leave_the_receiver (this : loc) (g : TypeGraph.t) (w : World)
    (rounds : nat) (alphabetizeProperties debug : bool) :
  heap w !! this = Some g →
  heap (rewriteFixedPoint rounds this alphabetizeProperties debug w).2 !! this = Some g ∧
  heap (garbageCollect this alphabetizeProperties debug w).2 !! this = Some g.
Proof.
  intros Hthis. split.
  - by apply (keeps_rewriteFixedPointLoop this g).
  - unfold garbageCollect.
    assert (keeps (holds this g) (fun _ : loc => True)
              (remap this "GC" getNoStringTypeMapping alphabetizeProperties [] debug true
               ≫= fun newGraph => mret newGraph)) as Hk; [|by apply Hk].
    eapply keeps_bind; [apply (keeps_remap this g)|]. intros newGraph _. by apply keeps_ret.
Qed.

(** When one forced rewrite of the receiver has as many nodes as the
    receiver, the fixed-point pass stops after that round and returns
    the receiver itself, not the rebuilt graph, which stays allocated. *)
Theorem fixed_point_of_a_stable_graph_is_the_receiver (this newGraph : loc)
    (g g' : TypeGraph.t) (w w1 : World) (rounds : nat)
    (alphabetizeProperties debug : bool) :
  rewrite this "fixed-point" getNoStringTypeMapping alphabetizeProperties [] debug
          mustNotHappen true w = (Ok newGraph, w1) →
  heap w1 !! this = Some g →
  heap w1 !! newGraph = Some g' →
  TypeGraph.isFrozen g = true →
  TypeGraph.isFrozen g' = true →
  is_Some (TypeGraph._types g) →
  is_Some (TypeGraph._types g') →
  length (newSet (nodes g)) = length (newSet (nodes g')) →
  rewriteFixedPoint (S rounds) this alphabetizeProperties debug w = (Ok this, w1).
Proof.
  intros Hrewrite Hthis Hnew Hf Hf' [types Ht] [types' Ht'] Hcount.
  unfold rewriteFixedPoint. simpl. rewrite bind_run, Hrewrite.
  rewrite bind_run. unfold allTypesUnordered at 1.
  rewrite bind_run, (readGraph_run _ _ _ Hthis). unfold liftResult at 1.
  rewrite (allTypesUnordered_frozen _ _ Hf Ht).
  rewrite bind_run. unfold allTypesUnordered at 1.
  rewrite bind_run, (readGraph_run _ _ _ Hnew). unfold liftResult at 1.
  rewrite (allTypesUnordered_frozen _ _ Hf' Ht').
  unfold nodes in Hcount. rewrite Ht, Ht' in Hcount. simpl in Hcount.
  by rewrite bool_decide_eq_true_2.
Qed.

End LawfulFurther.

(** ** The properties of the engine, on the scenarios *)

Lemma new_generation_inherits_the_switches_witness :
  let remapped :=
    remap (Co := Scenario.collaborators) 0 "GC" tt false [] false true Scenario.startWorld in
  ∃ g', heap remapped.2 !! 1 = Some g' ∧
        TypeGraph._printOnRewrite g' = TypeGraph._printOnRewrite Scenario.fourNodes ∧
        TypeGraph._haveProvenanceAttributes g'
          = TypeGraph._haveProvenanceAttributes Scenario.fourNodes ∧
        TypeGraph._parents g' = None ∧
        length (heap remapped.2) = S (length (heap Scenario.startWorld)).
Proof.
  intros remapped.
  apply (new_generation_inherits_the_switches (Co := Scenario.collaborators)
           0 Scenario.fourNodes Scenario.startWorld remapped.2 "GC" tt false false true [] 1);
    reflexivity.
Defined.

Lemma remap_never_returns_a_forwarding_intersection_witness :
  ¬ isOk (remap (Co := Scenario.forwardingCollaborators) 0 "GC" tt false [] false true
            Scenario.startWorld).1.
Proof.
  eapply (remap_never_returns_a_forwarding_intersection
            (Co := Scenario.forwardingCollaborators) 0 Scenario.fourNodes Scenario.startWorld
            "GC" tt false false true []); reflexivity.
Defined.

Lemma printGraph_prints_one_line_per_node_witness :
  let printed := printGraph (Co := Scenario.collaborators) 0 Scenario.startWorld in
  heap printed.2 = heap Scenario.startWorld ∧
  ∃ lines, console printed.2 = console Scenario.startWorld ++ lines ∧ length lines = 4.
Proof.
  intros printed.
  exact (printGraph_prints_one_line_per_node (Co := Scenario.collaborators)
           0 Scenario.fourNodes ((fun i => Scenario.node 0 i "class" []) <$> seq 0 4)
           Scenario.startWorld printed.2 eq_refl eq_refl eq_refl).
Defined.


Lemma fixed_point_and_gc_leave_the_receiver_witness :
  heap (rewriteFixedPoint (Co := Scenario.collaborators) 5 0 false false
          Scenario.startWorld).2 !! 0 = Some Scenario.fourNodes ∧
  heap (garbageCollect (Co := Scenario.collaborators) 0 false false
          Scenario.startWorld).2 !! 0 = Some Scenario.fourNodes.
Proof.
  apply (fixed_point_and_gc_leave_the_receiver (Co := Scenario.collaborators)
           (Law := scenario_lawful) 0 Scenario.fourNodes Scenario.startWorld 5 false false).
  reflexivity.
Defined.

Lemma fixed_point_of_a_stable_graph_is_the_receiver_witness :
  ∃ w1, rewriteFixedPoint (Co := Scenario.collaborators) 3 0 false false Scenario.stableWorld
          = (Ok 0, w1) ∧ length (heap w1) = 2.
Proof.
  eexists. split.
  - eapply (fixed_point_of_a_stable_graph_is_the_receiver (Co := Scenario.collaborators)
              0 1 Scenario.oneNode _ Scenario.stableWorld _ 2 false false).
    + vm_compute. reflexivity.
    + reflexivity.
    + reflexivity.
    + reflexivity.
    + reflexivity.
    + eexists. reflexivity.
    + eexists. reflexivity.
    + reflexivity.
  - reflexivity.
Defined.

Lemma rewrite_reports_lost_attributes_witness :
  (rewrite (Co := Scenario.collaborators) 0 "pass" tt false [] false tt true
     Scenario.markedWorld).1 = Err (IRTypeAttributesNotPropagated 2 [1%Z; 2%Z]).
Proof.
  eapply (rewrite_reports_lost_attributes (Co := Scenario.collaborators) 0
            (Scenario.markedGraph 0 [1%Z; 2%Z]) Scenario.markedWorld "pass" tt false []
            false tt true); reflexivity.
Defined.

(** ** The traversal under any predicate *)

(** [filterTypes], with any predicate or with none, never exhausts the
    traversal bound; whenever it returns, it returns each node that a
    root reaches and that the predicate accepts, once, and all of them
    when there is no predicate; and on a frozen graph whose references
    resolve it does return. *)
Theorem filterTypes_visits_each_reachable_node_once (g : TypeGraph.t)
    (predicate : option (Type_ → bool)) :
  TypeGraph.filterTypes g predicate ≠ Err Diverged ∧
  (∀ kept, TypeGraph.filterTypes g predicate = Ok kept →
     NoDup kept ∧
     ∀ ty, ty ∈ kept ↔ reachable g ty ∧ requiredBy predicate ty = true) ∧
  (∀ kept, TypeGraph.filterTypes g None = Ok kept → ∀ ty, ty ∈ kept ↔ reachable g ty) ∧
  (resolved g → isOk (TypeGraph.filterTypes g predicate)).
Proof.
  split_and!.
  - apply filterTypes_terminates.
  - intros kept Hrun. by apply filterTypes_spec in Hrun.
  - intros kept Hrun ty. apply filterTypes_spec in Hrun as [_ Hiff].
    rewrite Hiff. simpl. tauto.
  - apply filterTypes_resolved.
Qed.

Lemma filterTypes_visits_each_reachable_node_once_witness :
  isOk (TypeGraph.filterTypes Scenario.chainGraph None).
Proof.
  apply (filterTypes_visits_each_reachable_node_once Scenario.chainGraph None).
  apply chainGraph_resolved.
Defined.
